(** * The guild leaderboard data-access layer ([utils/database.py])

    [Database] runs a fixed catalogue of PostgreSQL statements through an
    asyncpg pool (or a connection handed in by the caller) and shapes the rows
    into Python dicts.  The statements are embedded as list programs over the
    three tables; the Python around them (None checks, comprehensions,
    [format_json]) is embedded in an exception monad. *)

From Stdlib Require Import ZArith String Ascii OrderedTypeEx SpecFloat.
From stdpp Require Import base decidable option list sorting strings gmap.

Set Warnings "-register-all".

Local Open Scope string_scope.
Local Open Scope Z_scope.

(** ** Python exceptions *)

Inductive exn :=
  | TypeError
  | JSONDecodeError.

Inductive result (A : Type) :=
  | Ok (a : A)
  | Raise (e : exn).
Arguments Ok {A} a.
Arguments Raise {A} e.

#[global] Instance result_ret : MRet result := @Ok.
#[global] Instance result_bind : MBind result := λ A B f m,
  match m with
  | Ok a => f a
  | Raise e => Raise e
  end.
#[global] Instance result_fmap : FMap result := λ A B f m,
  match m with
  | Ok a => Ok (f a)
  | Raise e => Raise e
  end.

(** ** PostgreSQL [numeric]

    A [numeric] is a decimal: an integer of digits and a display scale, the
    value being [digits * 10^-dscale]; or one of the special values. *)

Inductive numeric :=
  | NNaN
  | NInf (negative : bool)
  | NFin (digits : Z) (dscale : nat).

(** Division by [p] rounding the half away from zero, as [round_var] of
    numeric.c does. *)
Definition div_half_away (d p : Z) : Z :=
  Z.sgn d * ((Z.abs d + p / 2) / p).

(** [ROUND(v numeric, s int)] for [s >= 0]: the result has display scale [s]. *)
Definition sql_round (v : numeric) (s : nat) : numeric :=
  match v with
  | NFin d sc =>
      if (sc <=? s)%nat
      then NFin (d * 10 ^ Z.of_nat (s - sc)) s
      else NFin (div_half_away d (10 ^ Z.of_nat (sc - s))) s
  | special => special
  end.

(** The two binary floating point types of the statements, [REAL] (the
    columns) and [float] (= [float8], what the statements return, a Python
    [float]), and the two casts between them and [numeric] are parameters of
    the model: what is proved holds for any of them.  Two instances are
    given further down, one with decimals and one with IEEE binary32 and
    binary64 values and the casts of PostgreSQL. *)
Class Floats := {
  real : Type;
  float8 : Type;
  numeric_of_real : real → numeric;       (* [x::numeric] *)
  float8_of_numeric : numeric → float8;   (* [n::float] *)
}.

(** ** Text ordering

    [ORDER BY] on a [TEXT] column compares with the collation of the
    database.  A (deterministic) collation is a total order on strings in
    which only identical strings compare equal. *)
Class Collation := {
  collate : string → string → comparison;
  collate_eq a b : collate a b = Eq ↔ a = b;
  collate_antisym a b : collate a b = CompOpp (collate b a);
  collate_lt_trans a b c : collate a b = Lt → collate b c = Lt → collate a c = Lt;
}.

(** ** Weak orders given by a three-way comparison

    The sort keys of the statements are compared column by column; each
    column comparison, and their lexicographic combination, is a weak order:
    rows that compare [Eq] need not be the same row. *)

Record weak_order {A} (cmp : A → A → comparison) : Prop := {
  wo_antisym x y : cmp x y = CompOpp (cmp y x);
  wo_lt_trans x y z : cmp x y = Lt → cmp y z = Lt → cmp x z = Lt;
  wo_eq_l x y z : cmp x y = Eq → cmp x z = cmp y z;
}.

(** [x] sorts no later than [y]. *)
Definition cmp_le {A} (cmp : A → A → comparison) (x y : A) : Prop :=
  cmp x y ≠ Gt.

#[global] Instance cmp_le_dec {A} (cmp : A → A → comparison) x y :
  Decision (cmp_le cmp x y).
Proof. unfold cmp_le. apply _. Defined.

(** ** Sorting

    [ORDER BY] returns the rows in an order in which every row sorts no
    later than the rows after it; the order of rows that tie is left to the
    executor.  The sort is a parameter with this specification. *)
Class Sorting := {
  sort_by : ∀ {A}, (A → A → comparison) → list A → list A;
  sort_by_perm {A} (cmp : A → A → comparison) l : sort_by cmp l ≡ₚ l;
  sort_by_sorted {A} (cmp : A → A → comparison) l :
    weak_order cmp → StronglySorted (cmp_le cmp) (sort_by cmp l);
}.

(** NULL sorts as if larger than every value: last when ascending, first
    when descending (PostgreSQL's default). *)
Definition nulls_largest {A} (cmp : A → A → comparison) (x y : option A) : comparison :=
  match x, y with
  | None, None => Eq
  | None, Some _ => Gt
  | Some _, None => Lt
  | Some a, Some b => cmp a b
  end.

(** [ORDER BY e DESC]. *)
Definition desc {A} (cmp : A → A → comparison) (x y : A) : comparison := cmp y x.

(** [ORDER BY e1, e2]. *)
Definition then_by {A} (cmp1 cmp2 : A → A → comparison) (x y : A) : comparison :=
  match cmp1 x y with
  | Eq => cmp2 x y
  | c => c
  end.

(** Comparison of rows on a column. *)
Definition on_column {A B} (col : A → B) (cmp : B → B → comparison) (x y : A) : comparison :=
  cmp (col x) (col y).

(** The order of [ORDER BY capture_date] on nullable timestamps: on two
    timestamps it is [≤], and NULL comes after every timestamp. *)
Definition no_later (a b : option Z) : Prop := cmp_le (nulls_largest Z.compare) a b.

(** [SELECT DISTINCT ON (key) ... ORDER BY key, ...]: of each run of
    consecutive rows with the same key the first is kept. *)
Fixpoint distinct_after {A K} `{EqDecision K} (key : A → K) (prev : K) (rows : list A) : list A :=
  match rows with
  | [] => []
  | r :: rows' =>
      if decide (key r = prev)
      then distinct_after key prev rows'
      else r :: distinct_after key (key r) rows'
  end.

Definition distinct_on {A K} `{EqDecision K} (key : A → K) (rows : list A) : list A :=
  match rows with
  | [] => []
  | r :: rows' => r :: distinct_after key (key r) rows'
  end.

(** [array_length(a, 1)] of a one-dimensional array: NULL for the empty
    array. *)
Definition array_length {A} (a : option (list A)) : option Z :=
  match a with
  | None => None
  | Some [] => None
  | Some l => Some (Z.of_nat (length l))
  end.

(** [cardinality(a)]: the number of elements, 0 for the empty array. *)
Definition cardinality {A} (a : option (list A)) : option Z :=
  match a with
  | None => None
  | Some l => Some (Z.of_nat (length l))
  end.

Section Model.
Context `{Floats} `{Collation} `{Sorting}.

(** ** Python values *)

Inductive value :=
  | VNone
  | VBool (b : bool)
  | VInt (n : Z)
  | VFloat (f : float8)
  | VStr (s : string)
  | VTimedelta (microseconds : Z)
  | VList (l : list value)
  | VDict (d : list (string * value)).

(** A row as Python sees it, [dict(record).items()]: the columns in the
    order of the SELECT list. *)
Definition record := list (string * value).

Fixpoint lookup_field (k : string) (d : record) : option value :=
  match d with
  | [] => None
  | (k', v) :: d' => if decide (k' = k) then Some v else lookup_field k d'
  end.

(** asyncpg's decoding of a nullable column. *)
Definition py_text (x : option string) : value := from_option VStr VNone x.
Definition py_int (x : option Z) : value := from_option VInt VNone x.
Definition py_float (x : option float8) : value := from_option VFloat VNone x.
Definition py_interval (x : option Z) : value := from_option VTimedelta VNone x.
Definition py_text_array (x : option (list string)) : value :=
  from_option (λ l, VList (VStr <$> l)) VNone x.

(** ** The tables (the class docstring's CREATE TABLE statements)

    No column is declared NOT NULL, so every column is an [option].
    Timestamps are microseconds; [players] is a one-dimensional array of
    uuids, none of them NULL. *)

Record guild_row := {
  guild_id : option string;
  guild_name : option string;
  capture_date : option Z;
  players : option (list string);
  average_weight : option real;
  average_skills : option real;
  average_catacombs : option real;
  average_slayer : option real;
  scammers : option Z;
  position_change : option Z;
}.

Record player_row := {
  uuid : option string;
  name : option string;
  weight : option real;
  skill_weight : option real;
  slayer_weight : option real;
  dungeon_weight : option real;
  average_skill : option real;
  catacomb : option real;
  catacomb_xp : option real;
  total_slayer : option real;
  player_capture_date : option Z;
  scam_reason : option string;
}.

Record info_row := {
  info_guild_id : option string;
  discord : option string;
}.

(** What a statement sees through the handle it runs on ([Database.pool], or
    a connection the caller passes in): the rows visible to it, its
    [NOW()], and its session time zone, as the cast of a [timestamp] to
    [timestamptz]. *)
Record connection := {
  guilds : list guild_row;
  player_table : list player_row;
  guild_information : list info_row;
  NOW : Z;
  timestamptz_of : Z → Z;
}.

(** [self]: only [json_keys] is read by the operations. *)
Record Database := {
  json_keys : list string;
}.

(** [json.loads]: a parameter, so that nothing below depends on the grammar
    of JSON.  It raises on text that is not JSON, and on an argument that is
    not text. *)
Variable json_loads : value → result value.

(** ** The statements *)

(** [WHERE col = $1] with a text parameter: NULL equals nothing. *)
Definition sql_eq (col : option string) (arg : string) : Prop := col = Some arg.

(** [WHERE col = ANY($1)] with an array of texts. *)
Definition sql_any (col : option string) (arg : list string) : Prop :=
  match col with
  | Some u => u ∈ arg
  | None => False
  end.

#[global] Instance sql_eq_dec col arg : Decision (sql_eq col arg).
Proof. unfold sql_eq. apply _. Defined.

#[global] Instance sql_any_dec col arg : Decision (sql_any col arg).
Proof. destruct col; simpl; apply _. Defined.

(** [ROUND(x::numeric, 2)::float]. *)
Definition round2 (x : option real) : value :=
  py_float ((λ r, float8_of_numeric (sql_round (numeric_of_real r) 2)) <$> x).

(** [t AT TIME ZONE 'UTC'] of a [timestamptz]: the instant as a UTC
    wall-clock [timestamp]. *)
Definition at_time_zone_utc (t : Z) : Z := t.

(** [NOW() - capture_date::timestamptz at time zone 'UTC']: the cast binds
    tighter than [AT TIME ZONE], which binds tighter than [-]; the
    [timestamp] subtracted from [NOW()] is cast back to [timestamptz]. *)
Definition time_difference (c : connection) (captured : option Z) : value :=
  py_interval
    ((λ t, NOW c - timestamptz_of c (at_time_zone_utc (timestamptz_of c t))) <$> captured).

(** [ORDER BY guild_id, capture_date DESC]. *)
Definition by_guild_then_latest : guild_row → guild_row → comparison :=
  then_by (on_column guild_id (nulls_largest collate))
          (on_column capture_date (desc (nulls_largest Z.compare))).

(** [ORDER BY capture_date]. *)
Definition by_capture_date : guild_row → guild_row → comparison :=
  on_column capture_date (nulls_largest Z.compare).

(** The rows of [SELECT DISTINCT ON (guild_id) ... FROM guilds ORDER BY
    guild_id, capture_date DESC]. *)
Definition latest_per_guild (c : connection) : list guild_row :=
  distinct_on guild_id (sort_by by_guild_then_latest (guilds c)).

(** The same with [WHERE guild_id = $1]. *)
Definition latest_of_guild (c : connection) (gid : string) : list guild_row :=
  distinct_on guild_id
    (sort_by by_guild_then_latest
       (filter (λ r, sql_eq (guild_id r) gid) (guilds c))).

(** [FROM guilds WHERE guild_id = $1 ORDER BY capture_date]. *)
Definition snapshots_of_guild (c : connection) (gid : string) : list guild_row :=
  sort_by by_capture_date
    (filter (λ r, sql_eq (guild_id r) gid) (guilds c)).

(** [FROM players WHERE uuid = ANY($1)]. *)
Definition players_among (c : connection) (uuids : list string) : list player_row :=
  filter (λ r, sql_any (uuid r) uuids) (player_table c).

(** The SELECT lists. *)
Definition guilds_select (c : connection) (r : guild_row) : record :=
  [ ("average_catacombs", round2 (average_catacombs r));
    ("average_skills", round2 (average_skills r));
    ("average_slayer", round2 (average_slayer r));
    ("average_weight", round2 (average_weight r));
    ("guild_id", py_text (guild_id r));
    ("guild_name", py_text (guild_name r));
    ("players", py_int (array_length (players r)));
    ("time_difference", time_difference c (capture_date r));
    ("scammers", py_int (scammers r));
    ("position_change", py_int (position_change r)) ].

Definition guild_select (c : connection) (r : guild_row) : record :=
  [ ("average_catacombs", round2 (average_catacombs r));
    ("average_skills", round2 (average_skills r));
    ("average_slayer", round2 (average_slayer r));
    ("average_weight", round2 (average_weight r));
    ("guild_id", py_text (guild_id r));
    ("guild_name", py_text (guild_name r));
    ("players", py_text_array (players r));
    ("time_difference", time_difference c (capture_date r));
    ("scammers", py_int (scammers r)) ].

Definition metrics_select (c : connection) (r : guild_row) : record :=
  [ ("average_weight", round2 (average_weight r));
    ("average_skills", round2 (average_skills r));
    ("average_catacombs", round2 (average_catacombs r));
    ("average_slayer", round2 (average_slayer r));
    ("member_count", py_int (cardinality (players r)));
    ("time_difference", time_difference c (capture_date r)) ].

Definition history_select (c : connection) (r : guild_row) : record :=
  [ ("players", py_text_array (players r));
    ("time_difference", time_difference c (capture_date r)) ].

Definition players_select (c : connection) (r : player_row) : record :=
  [ ("uuid", py_text (uuid r));
    ("name", py_text (name r));
    ("weight", round2 (weight r));
    ("average_skill", round2 (average_skill r));
    ("catacomb", round2 (catacomb r));
    ("total_slayer", round2 (total_slayer r));
    ("time_difference", time_difference c (player_capture_date r));
    ("scam_reason", py_text (scam_reason r)) ].

(** [INSERT INTO guild_information (guild_id, discord) VALUES ($1, $2)
    ON CONFLICT (guild_id) DO UPDATE SET discord = $2]: the row in conflict
    is updated in place, and the row is inserted when there is none.
    [ON CONFLICT (guild_id)] is only accepted on a table with a unique index
    on [guild_id]. *)
Definition set_discord (gid d : string) (r : info_row) : info_row :=
  if decide (sql_eq (info_guild_id r) gid)
  then {| info_guild_id := info_guild_id r; discord := Some d |}
  else r.

Definition upsert (gid d : string) (t : list info_row) : list info_row :=
  if decide (Exists (λ r, sql_eq (info_guild_id r) gid) t)
  then set_discord gid d <$> t
  else t ++ [ {| info_guild_id := Some gid; discord := Some d |} ].

(** The unique index on [guild_information.guild_id]: no two rows have
    the same non-NULL [guild_id]. *)
Definition unique_guild_id (t : list info_row) : Prop :=
  ∀ gid, (length (filter (λ r, sql_eq (info_guild_id r) gid) t) ≤ 1)%nat.

(** ** The operations of [Database] *)

(** [format_json]: the dict comprehension decodes the values of the keys in
    [self.json_keys] and raises at the first value [json.loads] rejects. *)
Definition format_field (self : Database) (kv : string * value) : result (string * value) :=
  if decide (kv.1 ∈ json_keys self)
  then v ← json_loads kv.2; mret (kv.1, v)
  else mret kv.

Definition format_json (self : Database) (rec : option record) : result (option record) :=
  match rec with
  | None => mret None
  | Some r => Some <$> mapM (format_field self) r
  end.

(** The decoding rule of [format_json] on one item. *)
Definition decoded (self : Database) (kv kv' : string * value) : Prop :=
  kv'.1 = kv.1 ∧
  if decide (kv.1 ∈ json_keys self)
  then json_loads kv.2 = Ok kv'.2
  else kv'.2 = kv.2.

(** [[self.format_json(row) for row in r]]. *)
Definition format_rows (self : Database) (r : list record) : result (list (option record)) :=
  mapM (λ row, format_json self (Some row)) r.

(** [conn] when it is given (and not None), else the pool. *)
Definition handle (pool : connection) (conn : option connection) : connection :=
  match conn with
  | Some c => c
  | None => pool
  end.

Definition get_guilds (self : Database) (pool : connection) : result (list (option record)) :=
  let r := guilds_select pool <$> latest_per_guild pool in
  format_rows self r.

Definition get_guild (self : Database) (pool : connection) (gid : string)
    (conn : option connection) : result (option record) :=
  let h := handle pool conn in
  let r := head (guild_select h <$> latest_of_guild h gid) in
  format_json self r.

(** [str(guild_id)] is the identity on a [str]. *)
Definition get_guild_metrics (self : Database) (pool : connection) (gid : string)
    : result (list (option record)) :=
  let r := metrics_select pool <$> snapshots_of_guild pool gid in
  match r with
  | [] => mret []
  | _ => format_rows self r
  end.

Definition get_guild_history (self : Database) (pool : connection) (gid : string)
    : result (list (option record)) :=
  let r := history_select pool <$> snapshots_of_guild pool gid in
  match r with
  | [] => mret []
  | _ => format_rows self r
  end.

Definition get_id_name_autocomplete (self : Database) (pool : connection)
    : result (list record) :=
  let r := latest_per_guild pool in
  mret ((λ row, [("id", py_text (guild_id row)); ("name", py_text (guild_name row))]) <$> r).

(** [{row['uuid']: row['name'] for row in r}]: a later row replaces an
    earlier one with the same uuid. *)
Definition get_names (self : Database) (pool : connection) (uuids : list string)
    : result (gmap (option string) value) :=
  let r := players_among pool uuids in
  mret (foldl (λ d row, <[uuid row := py_text (name row)]> d) ∅ r).

Definition get_players (self : Database) (pool : connection) (uuids : list string)
    (conn : option connection) : result (list (option record)) :=
  let h := handle pool conn in
  let r := players_select h <$> players_among h uuids in
  format_rows self r.

(** The statement runs on the pool, whose state after it is returned; the
    Python function itself returns None. *)
Definition upsert_guild_info (self : Database) (pool : connection) (gid discordid : string)
    : result connection :=
  mret {| guilds := guilds pool;
          player_table := player_table pool;
          guild_information := upsert gid discordid (guild_information pool);
          NOW := NOW pool;
          timestamptz_of := timestamptz_of pool |}.

Definition get_guild_discord (self : Database) (pool : connection) (gid : string)
    (conn : option connection) : result value :=
  let h := handle pool conn in
  let r := head (filter (λ r, sql_eq (info_guild_id r) gid) (guild_information h)) in
  match r with
  | Some row => mret (py_text (discord row))
  | None => mret VNone
  end.

(** The values under key [k] of the returned records, in order. *)
Definition fields (k : string) (outs : list (option record)) : list (option value) :=
  (λ o, o ≫= lookup_field k) <$> outs.

(** The fields the statements round, with the column each is computed from. *)
Definition guild_averages : list (string * (guild_row → option real)) :=
  [ ("average_catacombs", average_catacombs);
    ("average_skills", average_skills);
    ("average_slayer", average_slayer);
    ("average_weight", average_weight) ].

Definition player_stats : list (string * (player_row → option real)) :=
  [ ("weight", weight);
    ("average_skill", average_skill);
    ("catacomb", catacomb);
    ("total_slayer", total_slayer) ].

(** [__init__]: a new [Database] decodes no key ([app] and [cached_guilds]
    are stored and never read). *)
Definition __init__ : Database := {| json_keys := [] |}.

(** The number of elements of a list value, None staying None: what
    [cardinality] is to the array the list was decoded from. *)
Definition count_of_list (v : value) : value :=
  match v with
  | VList l => VInt (Z.of_nat (length l))
  | other => other
  end.

(** The fields [get_guild] and [get_guilds] compute alike. *)
Definition guild_summary_keys : list string :=
  [ "average_catacombs"; "average_skills"; "average_slayer"; "average_weight";
    "guild_id"; "guild_name"; "time_difference"; "scammers" ].

(** ** Calling an operation

    The catalogue, and what Python does with a call that passes a
    connection: [get_guild], [get_players] and [get_guild_discord] are
    declared with [conn=None]; the other six have no such parameter, and a
    call that passes one raises TypeError before the body runs. *)

Inductive request :=
  | GetGuilds
  | GetGuild (gid : string)
  | GetGuildMetrics (gid : string)
  | GetGuildHistory (gid : string)
  | GetIdNameAutocomplete
  | GetNames (uuids : list string)
  | GetPlayers (uuids : list string)
  | UpsertGuildInfo (gid discordid : string)
  | GetGuildDiscord (gid : string).

Inductive response :=
  | Rows (l : list (option record))
  | Row (r : option record)
  | Pairs (l : list record)
  | Names (d : gmap (option string) value)
  | Scalar (v : value)
  | Nothing.

Definition has_conn_parameter (req : request) : bool :=
  match req with
  | GetGuild _ | GetPlayers _ | GetGuildDiscord _ => true
  | _ => false
  end.

(** The body of the operation, with [conn] bound where it is a parameter;
    the result and the pool's state afterwards. *)
Definition run (self : Database) (pool : connection) (req : request)
    (conn : option connection) : result response * connection :=
  match req with
  | GetGuilds => (Rows <$> get_guilds self pool, pool)
  | GetGuild gid => (Row <$> get_guild self pool gid conn, pool)
  | GetGuildMetrics gid => (Rows <$> get_guild_metrics self pool gid, pool)
  | GetGuildHistory gid => (Rows <$> get_guild_history self pool gid, pool)
  | GetIdNameAutocomplete => (Pairs <$> get_id_name_autocomplete self pool, pool)
  | GetNames uuids => (Names <$> get_names self pool uuids, pool)
  | GetPlayers uuids => (Rows <$> get_players self pool uuids conn, pool)
  | UpsertGuildInfo gid discordid =>
      match upsert_guild_info self pool gid discordid with
      | Ok pool' => (Ok Nothing, pool')
      | Raise e => (Raise e, pool)
      end
  | GetGuildDiscord gid => (Scalar <$> get_guild_discord self pool gid conn, pool)
  end.

(** [passed] is None for a call that passes no connection, and [Some c] for
    one that passes [c] (which may be Python's None). *)
Definition call (self : Database) (pool : connection) (req : request)
    (passed : option (option connection)) : result response * connection :=
  match passed with
  | None => run self pool req None
  | Some c =>
      if has_conn_parameter req
      then run self pool req c
      else (Raise TypeError, pool)
  end.

End Model.

(** ** Instances of the floating point parameters *)

(** The simple one: a [REAL] and a [float] are stood for by the decimal they
    cast to and from. *)
#[global] Instance decimal_floats : Floats := {|
  real := numeric;
  float8 := numeric;
  numeric_of_real := id;
  float8_of_numeric := id;
|}.

(** The IEEE one: a [REAL] is a binary32 and a [float] a binary64 value
    ([spec_float]: sign, mantissa and binary exponent). *)

(** [n / q] rounded to the nearest integer, a tie to the even one
    ([0 <= n], [0 < q]). *)
Definition div_half_even (n q : Z) : Z :=
  let (a, r) := Z.div_eucl n q in
  match 2 * r ?= q with
  | Lt => a
  | Gt => a + 1
  | Eq => if Z.even a then a else a + 1
  end.

Definition pow10_le (x n q : Z) : bool :=
  if 0 <=? x then 10 ^ x * q <=? n else q <=? n * 10 ^ (- x).

Fixpoint count_pow10_le (fuel : nat) (x n q : Z) : Z :=
  match fuel with
  | O => x - 1
  | S fuel' => if pow10_le x n q then count_pow10_le fuel' (x + 1) n q else x - 1
  end.

(** The largest [x] with [10^x <= n / q], searched from [-60] to [60]: the
    positive binary32 values lie between [10^-45] and [10^39]. *)
Definition floor_log10 (n q : Z) : Z := count_pow10_le 121 (-60) n q.

Fixpoint strip_zeros (fuel : nat) (digits k : Z) : Z * Z :=
  match fuel with
  | O => (digits, k)
  | S fuel' =>
      if (digits mod 10 =? 0) && negb (digits =? 0)
      then strip_zeros fuel' (digits / 10) (k + 1)
      else (digits, k)
  end.

(** What the format [%.6g] prints for [n / q > 0], as digits without
    trailing zeros and a power of ten. *)
Definition six_digits (n q : Z) : Z * Z :=
  let x := floor_log10 n q in
  let scaled :=
    div_half_even (n * 10 ^ Z.max (5 - x) 0) (q * 10 ^ Z.max (x - 5) 0) in
  let '(digits, x) := if scaled =? 10 ^ 6 then (10 ^ 5, x + 1) else (scaled, x) in
  strip_zeros 6 digits (x - 5).

Definition numeric_of_decimal (negative : bool) (dk : Z * Z) : numeric :=
  let '(digits, k) := dk in
  let digits := if negative then - digits else digits in
  if 0 <=? k then NFin (digits * 10 ^ k) 0 else NFin digits (Z.to_nat (- k)).

(** [float4_numeric] of numeric.c: the value is printed with [FLT_DIG = 6]
    significant digits and the text is read as a [numeric]. *)
Definition numeric_of_binary32 (x : spec_float) : numeric :=
  match x with
  | S754_nan => NNaN
  | S754_infinity s => NInf s
  | S754_zero _ => NFin 0 0
  | S754_finite s m e =>
      numeric_of_decimal s (six_digits (Z.pos m * 2 ^ Z.max e 0) (2 ^ Z.max (- e) 0))
  end.

(** The binary64 nearest to [n / q > 0], a tie to the even mantissa. *)
Definition binary64_nearest (negative : bool) (n q : Z) : spec_float :=
  let l := Z.log2 n - Z.log2 q in
  let ge := if 0 <=? l then q * 2 ^ l <=? n else q <=? n * 2 ^ (- l) in
  let fl := if ge then l else l - 1 in
  let e := Z.max (fl - 52) (-1074) in
  let m := div_half_even (n * 2 ^ Z.max (- e) 0) (q * 2 ^ Z.max e 0) in
  let '(m, e) := if m =? 2 ^ 53 then (2 ^ 52, e + 1) else (m, e) in
  if 1024 <? e + 53 then S754_infinity negative
  else match m with
       | Z.pos p => S754_finite negative p e
       | _ => S754_zero negative
       end.

(** [numeric_float8]: the decimal is read as the nearest [float8]. *)
Definition binary64_of_numeric (v : numeric) : spec_float :=
  match v with
  | NNaN => S754_nan
  | NInf s => S754_infinity s
  | NFin d sc =>
      match d with
      | 0 => S754_zero false
      | Z.pos _ => binary64_nearest false d (10 ^ Z.of_nat sc)
      | Z.neg _ => binary64_nearest true (- d) (10 ^ Z.of_nat sc)
      end
  end.

Definition ieee_floats : Floats := {|
  real := spec_float;
  float8 := spec_float;
  numeric_of_real := numeric_of_binary32;
  float8_of_numeric := binary64_of_numeric;
|}.

(** The binary32 nearest to 12.345, which is 12.34500026702880859375. *)
Definition real_12_345 : spec_float := S754_finite false 12944671 (-20).

(** ** A sample database

    [json_loads] and the tables on which the model is run below. *)

(** An instance of [json_loads]: [json.loads] on the JSON texts that are
    one integer (an optional minus sign, then 0 or digits that do not start
    with 0); every other text is rejected. *)
Definition digit_of (c : ascii) : option Z :=
  let n := Z.of_N (N_of_ascii c) in
  if (48 <=? n) && (n <=? 57) then Some (n - 48) else None.

Fixpoint digits_value (acc : Z) (s : string) : option Z :=
  match s with
  | EmptyString => Some acc
  | String c s' => d ← digit_of c; digits_value (10 * acc + d) s'
  end.

Definition json_natural (s : string) : option Z :=
  match s with
  | EmptyString => None
  | String "0" EmptyString => Some 0
  | String "0" _ => None
  | _ => digits_value 0 s
  end.

Definition json_integer (s : string) : option Z :=
  match s with
  | String "-" s' => Z.opp <$> json_natural s'
  | _ => json_natural s
  end.

Definition loads_integer `{Floats} (v : value) : result value :=
  match v with
  | VStr s =>
      match json_integer s with
      | Some n => Ok (VInt n)
      | None => Raise JSONDecodeError
      end
  | _ => Raise TypeError
  end.

(** A small database: two snapshots of G1, the later one with no player,
    one snapshot of G2, two players, and the discord id of G1. *)
Definition snapshot (gid gname : string) (captured : Z) (uuids : list string)
    (avg_weight : numeric) : guild_row :=
  {| guild_id := Some gid; guild_name := Some gname; capture_date := Some captured;
     players := Some uuids;
     average_weight := Some avg_weight; average_skills := Some (NFin 25 0);
     average_catacombs := Some (NFin (-1005) 3); average_slayer := None;
     scammers := Some 0; position_change := None |}.

Definition player (u n : string) (w : numeric) : player_row :=
  {| uuid := Some u; name := Some n; weight := Some w;
     skill_weight := None; slayer_weight := None; dungeon_weight := None;
     average_skill := Some (NFin 4567 2); catacomb := Some (NFin 5 3);
     catacomb_xp := None; total_slayer := Some (NFin 12345 3);
     player_capture_date := Some 15; scam_reason := None |}.

Definition sample_pool : connection :=
  {| guilds := [ snapshot "G1" "7" 10 ["u1"; "u2"] (NFin 20 1);
                 snapshot "G2" "Beta" 5 ["u3"] (NFin 12345 3);
                 snapshot "G1" "7" 20 [] (NFin 12344 3) ];
     player_table := [ player "u1" "7" (NFin 15 1); player "u3" "Cy" (NFin 995 3) ];
     guild_information := [ {| info_guild_id := Some "G1"; discord := Some "7" |} ];
     NOW := 100;
     timestamptz_of := id |}.

(** A connection in a transaction that sees no snapshot yet. *)
Definition empty_conn `{Floats} : connection :=
  {| guilds := []; player_table := []; guild_information := [];
     NOW := 100; timestamptz_of := id |}.

Definition plain : Database := {| json_keys := [] |}.
Definition decoding : Database := {| json_keys := ["name"; "discord"; "u1"] |}.

(** * Facts about the orders *)

Section weak_order_facts.
Context {A : Type} (cmp : A → A → comparison) (Hcmp : weak_order cmp).

Lemma wo_refl x : cmp x x = Eq.
Proof.
  pose proof (wo_antisym _ Hcmp x x) as E.
  destruct (cmp x x); simpl in E; congruence.
Qed.

Lemma wo_eq_r x y z : cmp y z = Eq → cmp x y = cmp x z.
Proof.
  intros E.
  rewrite (wo_antisym _ Hcmp x y), (wo_antisym _ Hcmp x z).
  f_equal. by apply wo_eq_l.
Qed.

Lemma wo_eq_sym x y : cmp x y = Eq → cmp y x = Eq.
Proof. intros E. rewrite (wo_antisym _ Hcmp), E. done. Qed.

Lemma wo_gt_lt x y : cmp x y = Gt ↔ cmp y x = Lt.
Proof.
  rewrite (wo_antisym _ Hcmp x y).
  destruct (cmp y x); simpl; split; congruence.
Qed.

#[local] Instance cmp_le_total : Total (cmp_le cmp).
Proof.
  intros x y. unfold cmp_le.
  rewrite (wo_antisym _ Hcmp y x).
  destruct (cmp x y); simpl; auto.
Qed.

#[local] Instance cmp_le_trans : Transitive (cmp_le cmp).
Proof.
  intros x y z. unfold cmp_le. intros Hxy Hyz.
  destruct (cmp x y) eqn:Exy; [| |done].
  - by rewrite (wo_eq_l _ Hcmp x y z Exy).
  - destruct (cmp y z) eqn:Eyz; [| |done].
    + by rewrite <- (wo_eq_r x y z Eyz), Exy.
    + by rewrite (wo_lt_trans _ Hcmp x y z Exy Eyz).
Qed.

Lemma cmp_le_antisym_eq x y : cmp_le cmp x y → cmp_le cmp y x → cmp x y = Eq.
Proof.
  unfold cmp_le. rewrite (wo_antisym _ Hcmp y x).
  destruct (cmp x y); simpl; congruence.
Qed.

Lemma weak_order_desc : weak_order (desc cmp).
Proof.
  split; unfold desc.
  - intros x y. apply (wo_antisym _ Hcmp).
  - intros x y z Hxy Hyz. eapply (wo_lt_trans _ Hcmp); eauto.
  - intros x y z E. apply wo_eq_r. by apply wo_eq_sym.
Qed.

Lemma weak_order_nulls_largest : weak_order (nulls_largest cmp).
Proof.
  split.
  - intros [x|] [y|]; simpl; auto. apply (wo_antisym _ Hcmp).
  - intros [x|] [y|] [z|]; simpl; try congruence. apply (wo_lt_trans _ Hcmp).
  - intros [x|] [y|] [z|]; simpl; try congruence. apply (wo_eq_l _ Hcmp).
Qed.

Lemma weak_order_on_column {B} (col : B → A) : weak_order (on_column col cmp).
Proof.
  split; unfold on_column.
  - intros x y. apply (wo_antisym _ Hcmp).
  - intros x y z. apply (wo_lt_trans _ Hcmp).
  - intros x y z. apply (wo_eq_l _ Hcmp).
Qed.

Lemma weak_order_then_by (cmp2 : A → A → comparison) :
  weak_order cmp2 → weak_order (then_by cmp cmp2).
Proof.
  intros H2. split; unfold then_by.
  - intros x y. rewrite (wo_antisym _ Hcmp x y).
    destruct (cmp y x); simpl; auto. apply (wo_antisym _ H2).
  - intros x y z.
    destruct (cmp x y) eqn:Exy; [| |done].
    + rewrite (wo_eq_l _ Hcmp x y z Exy).
      destruct (cmp y z); [|done..]. apply (wo_lt_trans _ H2).
    + destruct (cmp y z) eqn:Eyz; [| |done].
      * by rewrite <- (wo_eq_r x y z Eyz), Exy.
      * by rewrite (wo_lt_trans _ Hcmp x y z Exy Eyz).
  - intros x y z.
    destruct (cmp x y) eqn:Exy; [|done..].
    rewrite (wo_eq_l _ Hcmp x y z Exy).
    destruct (cmp y z); auto. apply (wo_eq_l _ H2).
Qed.

(** The first sort key decides unless it ties. *)
Lemma then_by_le_fst (cmp2 : A → A → comparison) x y :
  cmp_le (then_by cmp cmp2) x y → cmp_le cmp x y.
Proof. unfold cmp_le, then_by. by destruct (cmp x y). Qed.

Lemma then_by_le_snd (cmp2 : A → A → comparison) x y :
  cmp x y = Eq → cmp_le (then_by cmp cmp2) x y → cmp_le cmp2 x y.
Proof. unfold cmp_le, then_by. by intros ->. Qed.

End weak_order_facts.

Lemma weak_order_Z : weak_order Z.compare.
Proof.
  split.
  - intros x y. apply Z.compare_antisym.
  - intros x y z. rewrite !Z.compare_lt_iff. lia.
  - intros x y z. rewrite Z.compare_eq_iff. by intros ->.
Qed.

Lemma weak_order_collate `{Collation} : weak_order collate.
Proof.
  split.
  - apply collate_antisym.
  - apply collate_lt_trans.
  - intros x y z E. apply collate_eq in E. by subst.
Qed.

Lemma nulls_largest_collate_eq `{Collation} a b :
  nulls_largest collate a b = Eq ↔ a = b.
Proof.
  destruct a, b; simpl; try (split; congruence).
  rewrite collate_eq. split; congruence.
Qed.

Lemma no_later_Some a b : no_later (Some a) (Some b) ↔ a ≤ b.
Proof. unfold no_later, cmp_le. simpl. by rewrite Z.compare_gt_iff, Z.nlt_ge. Qed.

Lemma no_later_None a : no_later a None.
Proof. unfold no_later, cmp_le. by destruct a. Qed.

(** * Facts about DISTINCT ON over sorted rows *)

Section distinct_facts.
Context {A K : Type} `{EqDecision K} (key : A → K).
Context (cmp : A → A → comparison) (kcmp : K → K → comparison).
Context (Hc : weak_order cmp) (Hk : weak_order kcmp).
Context (Hk_eq : ∀ a b, kcmp a b = Eq → a = b).
Context (Hkey : ∀ x y, cmp_le cmp x y → cmp_le kcmp (key x) (key y)).

Lemma distinct_after_elem prev l x :
  x ∈ distinct_after key prev l → x ∈ l.
Proof.
  revert prev. induction l as [|y l IH]; intros prev; simpl; [done|].
  case_decide.
  - intros Hx. right. eauto.
  - rewrite elem_of_cons. intros [->|Hx]; [left|right; eauto].
Qed.

Lemma distinct_on_elem l x : x ∈ distinct_on key l → x ∈ l.
Proof.
  destruct l as [|y l]; simpl; [done|].
  rewrite elem_of_cons. intros [->|Hx]; [left|right].
  by eapply distinct_after_elem.
Qed.

(** Every key of the input survives. *)
Lemma distinct_after_complete prev l y :
  y ∈ l → key y = prev ∨ ∃ x, x ∈ distinct_after key prev l ∧ key x = key y.
Proof.
  revert prev. induction l as [|z l IH]; intros prev; [by rewrite elem_of_nil|].
  rewrite elem_of_cons. simpl. intros [->|Hy].
  - case_decide; [by left|]. right. exists z. split; [left|done].
  - case_decide.
    + by apply IH.
    + right. destruct (IH (key z) Hy) as [E|(x & Hx & E)].
      * exists z. split; [left|done].
      * exists x. split; [by right|done].
Qed.

Lemma distinct_on_complete l y :
  y ∈ l → ∃ x, x ∈ distinct_on key l ∧ key x = key y.
Proof.
  destruct l as [|z l]; [by rewrite elem_of_nil|].
  rewrite elem_of_cons. simpl. intros [->|Hy].
  - exists z. split; [left|done].
  - destruct (distinct_after_complete (key z) l y Hy) as [E|(x & Hx & E)].
    + exists z. split; [left|done].
    + exists x. split; [by right|done].
Qed.

(** Two keys, each sorting no later than the other, are the same key. *)
Lemma key_le_antisym a b : cmp_le kcmp a b → cmp_le kcmp b a → a = b.
Proof. intros Hab Hba. apply Hk_eq. by apply cmp_le_antisym_eq. Qed.

(** In rows sorted on the key first, a kept row has a key other than the
    one before it, and no row with its key sorts before it. *)
Lemma distinct_after_first prev l x :
  StronglySorted (cmp_le cmp) l →
  (∀ y, y ∈ l → cmp_le kcmp prev (key y)) →
  x ∈ distinct_after key prev l →
  key x ≠ prev ∧ ∀ y, y ∈ l → key y = key x → cmp_le cmp x y.
Proof.
  revert prev. induction l as [|z l IH]; intros prev Hs Hprev; simpl;
    [by rewrite elem_of_nil|].
  apply StronglySorted_inv in Hs as [Hs Hz].
  rewrite Forall_forall in Hz.
  case_decide as Ez.
  - intros Hx.
    destruct (IH prev Hs) as [Hne Hmin]; [|done|].
    { intros y Hy. apply Hprev. by right. }
    split; [done|]. intros y Hy Ey.
    apply elem_of_cons in Hy as [->|Hy]; [congruence|by apply Hmin].
  - rewrite elem_of_cons. intros [->|Hx].
    + split; [done|]. intros y Hy _.
      apply elem_of_cons in Hy as [->|Hy]; [|by apply Hz].
      unfold cmp_le. by rewrite wo_refl.
    + destruct (IH (key z) Hs) as [Hne Hmin]; [|done|].
      { intros y Hy. apply Hkey. by apply Hz. }
      split.
      * intros Ex. apply Ez, key_le_antisym.
        -- rewrite <- Ex. apply Hkey, Hz. by eapply distinct_after_elem.
        -- apply Hprev. left.
      * intros y Hy Ey.
        apply elem_of_cons in Hy as [->|Hy]; [congruence|by apply Hmin].
Qed.

Lemma distinct_on_first l x :
  StronglySorted (cmp_le cmp) l →
  x ∈ distinct_on key l →
  ∀ y, y ∈ l → key y = key x → cmp_le cmp x y.
Proof.
  destruct l as [|z l]; simpl; [by rewrite elem_of_nil|].
  intros Hs. apply StronglySorted_inv in Hs as [Hs Hz].
  rewrite Forall_forall in Hz.
  rewrite elem_of_cons. intros [->|Hx] y Hy Ey.
  - apply elem_of_cons in Hy as [->|Hy]; [|by apply Hz].
    unfold cmp_le. by rewrite wo_refl.
  - destruct (distinct_after_first (key z) l x Hs) as [Hne Hmin]; [|done|].
    { intros y' Hy'. apply Hkey. by apply Hz. }
    apply elem_of_cons in Hy as [->|Hy]; [congruence|by apply Hmin].
Qed.

(** The kept rows have pairwise different keys. *)
Lemma distinct_after_NoDup prev l :
  StronglySorted (cmp_le cmp) l →
  (∀ y, y ∈ l → cmp_le kcmp prev (key y)) →
  NoDup (prev :: (key <$> distinct_after key prev l)).
Proof.
  revert prev. induction l as [|z l IH]; intros prev Hs Hprev; simpl.
  { apply NoDup_singleton. }
  pose proof Hs as Hs0.
  apply StronglySorted_inv in Hs as [Hs Hz].
  rewrite Forall_forall in Hz.
  case_decide as Ez.
  - apply IH; [done|]. intros y Hy. apply Hprev. by right.
  - assert (Hz' : ∀ y, y ∈ l → cmp_le kcmp (key z) (key y)).
    { intros y Hy. apply Hkey. by apply Hz. }
    specialize (IH (key z) Hs Hz').
    rewrite fmap_cons. apply NoDup_cons. split; [|done].
    rewrite elem_of_cons. intros [E|Hin]; [congruence|].
    apply list_elem_of_fmap in Hin as (x & Ex & Hx).
    destruct (distinct_after_first (key z) l x Hs Hz' Hx) as [Hne _].
    apply Ez, key_le_antisym.
    + rewrite Ex. apply Hkey, Hz. by eapply distinct_after_elem.
    + apply Hprev. left.
Qed.

Lemma distinct_on_NoDup l :
  StronglySorted (cmp_le cmp) l → NoDup (key <$> distinct_on key l).
Proof.
  destruct l as [|z l]; simpl; [constructor|].
  intros Hs. apply StronglySorted_inv in Hs as [Hs Hz].
  rewrite Forall_forall in Hz.
  apply distinct_after_NoDup; [done|].
  intros y Hy. apply Hkey. by apply Hz.
Qed.

End distinct_facts.

(** A WHERE clause no row satisfies leaves no row. *)
Lemma filter_none {A} (P : A → Prop) `{∀ x, Decision (P x)} (l : list A) :
  (∀ x, x ∈ l → ¬ P x) → filter P l = [].
Proof.
  intros Hnone. destruct (filter P l) as [|x k] eqn:E; [done|].
  assert (Hx : x ∈ filter P l) by (rewrite E; left).
  apply list_elem_of_filter in Hx as [HP Hx]. by destruct (Hnone x Hx).
Qed.

(** Sorting no row gives no row. *)
Lemma sort_by_nil `{Sorting} {A} (cmp : A → A → comparison) : sort_by cmp [] = [].
Proof. apply Permutation_nil_r, sort_by_perm. Qed.

(** * Facts about the statements *)

Section statement_facts.
Context `{Floats} `{Collation} `{Sorting}.

Lemma weak_order_by_guild_then_latest : weak_order by_guild_then_latest.
Proof.
  apply weak_order_then_by; apply weak_order_on_column.
  - apply weak_order_nulls_largest, weak_order_collate.
  - apply weak_order_desc, weak_order_nulls_largest, weak_order_Z.
Qed.

Lemma weak_order_by_capture_date : weak_order by_capture_date.
Proof. apply weak_order_on_column, weak_order_nulls_largest, weak_order_Z. Qed.

Lemma sorted_by_guild_then_latest (l : list guild_row) :
  StronglySorted (cmp_le by_guild_then_latest) (sort_by by_guild_then_latest l).
Proof. apply sort_by_sorted, weak_order_by_guild_then_latest. Qed.

Lemma sorted_by_capture_date (l : list guild_row) :
  StronglySorted (cmp_le by_capture_date) (sort_by by_capture_date l).
Proof. apply sort_by_sorted, weak_order_by_capture_date. Qed.

(** Of two rows of one guild, the one sorting first was captured last. *)
Lemma by_guild_then_latest_same_guild (x y : guild_row) :
  guild_id y = guild_id x →
  cmp_le by_guild_then_latest x y →
  no_later (capture_date y) (capture_date x).
Proof.
  intros E Hle.
  apply then_by_le_snd in Hle; [done|].
  unfold on_column. rewrite E.
  apply wo_refl, weak_order_nulls_largest, weak_order_collate.
Qed.

Section distinct_sorted.
Variable l : list guild_row.

Lemma latest_rows_elem r :
  r ∈ distinct_on guild_id (sort_by by_guild_then_latest l) → r ∈ l.
Proof.
  intros Hr. apply distinct_on_elem in Hr.
  by rewrite sort_by_perm in Hr.
Qed.

Lemma latest_rows_latest r r' :
  r ∈ distinct_on guild_id (sort_by by_guild_then_latest l) →
  r' ∈ l → guild_id r' = guild_id r →
  no_later (capture_date r') (capture_date r).
Proof.
  intros Hr Hr' E.
  apply by_guild_then_latest_same_guild; [done|].
  eapply (distinct_on_first guild_id by_guild_then_latest (nulls_largest collate));
    eauto using weak_order_by_guild_then_latest, sorted_by_guild_then_latest.
  - apply weak_order_nulls_largest, weak_order_collate.
  - intros a b. apply nulls_largest_collate_eq.
  - intros x y. apply then_by_le_fst.
  - by rewrite sort_by_perm.
Qed.

Lemma latest_rows_NoDup :
  NoDup (guild_id <$> distinct_on guild_id (sort_by by_guild_then_latest l)).
Proof.
  eapply (distinct_on_NoDup guild_id by_guild_then_latest (nulls_largest collate));
    eauto using weak_order_by_guild_then_latest, sorted_by_guild_then_latest.
  - apply weak_order_nulls_largest, weak_order_collate.
  - intros a b. apply nulls_largest_collate_eq.
  - intros x y. apply then_by_le_fst.
Qed.

Lemma latest_rows_complete r' :
  r' ∈ l →
  ∃ r, r ∈ distinct_on guild_id (sort_by by_guild_then_latest l)
       ∧ guild_id r = guild_id r'.
Proof.
  intros Hr'. apply distinct_on_complete.
  by rewrite sort_by_perm.
Qed.

End distinct_sorted.

End statement_facts.

(** * The operations *)

Section operation_facts.
Context `{Floats} `{Collation} `{Sorting}.
Variable json_loads : value → result value.

Lemma latest_of_guild_elem (c : connection) gid r :
  r ∈ latest_of_guild c gid →
  r ∈ guilds c ∧ guild_id r = Some gid ∧
  ∀ r', r' ∈ guilds c → guild_id r' = Some gid →
        no_later (capture_date r') (capture_date r).
Proof.
  intros Hr. unfold latest_of_guild in Hr.
  pose proof (latest_rows_elem _ _ Hr) as Hf.
  apply list_elem_of_filter in Hf as [Eg Hin].
  split_and!; [done..|].
  intros r' Hr' Eg'.
  eapply latest_rows_latest; [done| |congruence].
  by apply list_elem_of_filter.
Qed.

Lemma latest_of_guild_nil (c : connection) gid :
  latest_of_guild c gid = [] ↔ ∀ r, r ∈ guilds c → guild_id r ≠ Some gid.
Proof.
  split.
  - intros E r Hr Eg.
    destruct (latest_rows_complete
                (filter (λ r, sql_eq (guild_id r) gid) (guilds c)) r) as (x & Hx & _).
    { by apply list_elem_of_filter. }
    unfold latest_of_guild in E. rewrite E in Hx. by apply elem_of_nil in Hx.
  - intros Hnone. unfold latest_of_guild.
    rewrite filter_none, sort_by_nil; [done|]. intros r Hr. by apply Hnone.
Qed.

(** C1. When the guilds table (as the connection the statement runs on sees
    it) has a snapshot of [gid], [get_guild] returns [format_json] of the
    record selected from a snapshot [r] of [gid] such that no snapshot of
    [gid] has a later [capture_date]: none sorts after [r] in the order of
    [ORDER BY capture_date], which on two timestamps is [≤]. *)
Theorem get_guild_returns_latest_snapshot self pool gid conn :
  (∃ r0, r0 ∈ guilds (handle pool conn) ∧ guild_id r0 = Some gid) →
  ∃ r, r ∈ guilds (handle pool conn) ∧ guild_id r = Some gid ∧
       (∀ r', r' ∈ guilds (handle pool conn) → guild_id r' = Some gid →
              no_later (capture_date r') (capture_date r)) ∧
       (∀ r' t t', r' ∈ guilds (handle pool conn) → guild_id r' = Some gid →
              capture_date r = Some t → capture_date r' = Some t' → t' ≤ t) ∧
       get_guild json_loads self pool gid conn
       = format_json json_loads self (Some (guild_select (handle pool conn) r)).
Proof.
  intros (r0 & Hr0 & Eg0). unfold get_guild.
  destruct (latest_of_guild (handle pool conn) gid) as [|r rest] eqn:E.
  - by destruct (proj1 (latest_of_guild_nil _ _) E r0 Hr0).
  - assert (Hr : r ∈ latest_of_guild (handle pool conn) gid) by (rewrite E; left).
    apply latest_of_guild_elem in Hr as (Hin & Eg & Hmax).
    exists r. split_and!; [done..| |done].
    intros r' t t' Hr' Eg' Et Et'.
    specialize (Hmax r' Hr' Eg'). rewrite Et, Et' in Hmax.
    by apply no_later_Some.
Qed.

(** C6. With no snapshot of [gid], [get_guild] returns None; with no
    mapping row of [gid], [get_guild_discord] returns None.  Both return:
    nothing is raised. *)
Theorem get_guild_and_discord_none_when_absent self pool gid conn :
  ((∀ r, r ∈ guilds (handle pool conn) → guild_id r ≠ Some gid) →
   get_guild json_loads self pool gid conn = Ok None) ∧
  ((∀ r, r ∈ guild_information (handle pool conn) → info_guild_id r ≠ Some gid) →
   get_guild_discord self pool gid conn = Ok VNone).
Proof.
  split.
  - intros Hnone. unfold get_guild.
    by rewrite (proj2 (latest_of_guild_nil _ _) Hnone).
  - intros Hnone. unfold get_guild_discord.
    rewrite filter_none; [done|]. intros r Hr. by apply Hnone.
Qed.

End operation_facts.

(** * Facts about the exception monad and [format_json] *)

Section format_facts.
Context `{Floats}.
Variable json_loads : value → result value.

Lemma mapM_Ok {A B} (f : A → result B) l k :
  mapM f l = Ok k ↔ Forall2 (λ x y, f x = Ok y) l k.
Proof.
  revert k. induction l as [|x l IH]; intros k; simpl.
  - split.
    + intros [= <-]. constructor.
    + intros Hk. by inv Hk.
  - split.
    + destruct (f x) as [y|] eqn:Ex; simpl; [|done].
      destruct (mapM f l) as [k'|] eqn:El; simpl; [|done].
      intros [= <-]. constructor; [done|]. by apply IH.
    + intros Hk. inversion Hk as [|? y ? k' Hx Hl]; subst.
      rewrite Hx. simpl. apply IH in Hl. by rewrite Hl.
Qed.

Lemma mapM_fmap {A B C} (f : B → result C) (g : A → B) l :
  mapM f (g <$> l) = mapM (f ∘ g) l.
Proof.
  induction l as [|x l IH]; [done|].
  rewrite fmap_cons. cbn [mapM]. by rewrite IH.
Qed.

Lemma format_field_Ok self kv kv' :
  format_field json_loads self kv = Ok kv' ↔ decoded json_loads self kv kv'.
Proof.
  unfold format_field, decoded. destruct kv as [k v], kv' as [k' v']. simpl.
  case_decide.
  - destruct (json_loads v) as [w|]; simpl; split.
    + by intros [= <- <-].
    + by intros [-> [= ->]].
    + done.
    + by intros [_ ?].
  - split.
    + by intros [= <- <-].
    + by intros [-> ->].
Qed.

Lemma format_json_Ok self rec out :
  format_json json_loads self (Some rec) = Ok out
  ↔ ∃ d, out = Some d ∧ Forall2 (decoded json_loads self) rec d.
Proof.
  simpl. split.
  - destruct (mapM _ rec) as [d|] eqn:E; simpl; [|done].
    intros [= <-]. exists d. split; [done|].
    apply mapM_Ok in E. eapply Forall2_impl; [done|].
    intros kv kv'. apply format_field_Ok.
  - intros (d & -> & Hd).
    assert (E : mapM (format_field json_loads self) rec = Ok d).
    { apply mapM_Ok. eapply Forall2_impl; [done|].
      intros kv kv'. apply format_field_Ok. }
    by rewrite E.
Qed.

(** A key outside [json_keys] keeps its value. *)
Lemma decoded_lookup self rec d k :
  Forall2 (decoded json_loads self) rec d → k ∉ json_keys self →
  lookup_field k d = lookup_field k rec.
Proof.
  intros Hd Hk. induction Hd as [|[k1 v1] [k2 v2] rec d [E1 E2] _ IH]; [done|].
  simpl in *. subst k2. destruct (decide (k1 = k)) as [->|]; [|done].
  rewrite decide_False in E2 by done. by subst.
Qed.

Lemma format_json_no_keys self rec :
  json_keys self = [] → format_json json_loads self rec = Ok rec.
Proof.
  intros Hk. destruct rec as [rec|]; [|done].
  apply format_json_Ok. exists rec. split; [done|].
  apply Forall_Forall2_diag, Forall_forall. intros kv _.
  split; [done|]. rewrite Hk. by rewrite decide_False by apply not_elem_of_nil.
Qed.

(** What [[self.format_json(row) for row in r]] returns, row by row. *)
Lemma format_rows_Ok self r outs :
  format_rows json_loads self r = Ok outs
  ↔ Forall2 (λ rec o, ∃ d, o = Some d ∧ Forall2 (decoded json_loads self) rec d) r outs.
Proof.
  unfold format_rows. rewrite mapM_Ok.
  split; intros Hf; (eapply Forall2_impl; [done|]); intros rec o; apply format_json_Ok.
Qed.

Lemma format_rows_no_keys self r :
  json_keys self = [] → format_rows json_loads self r = Ok (Some <$> r).
Proof.
  intros Hk. apply mapM_Ok. apply Forall2_fmap_r, Forall_Forall2_diag, Forall_forall.
  intros rec _. by apply format_json_no_keys.
Qed.

End format_facts.

Section returned_fields.
Context `{Floats} `{Collation} `{Sorting}.
Variable json_loads : value → result value.

Lemma format_json_field self rec out k :
  format_json json_loads self (Some rec) = Ok out → k ∉ json_keys self →
  out ≫= lookup_field k = lookup_field k rec.
Proof.
  intros Hout Hk. apply format_json_Ok in Hout as (d & -> & Hd).
  simpl. by eapply decoded_lookup.
Qed.

Lemma format_rows_fields self recs outs k :
  format_rows json_loads self recs = Ok outs → k ∉ json_keys self →
  fields k outs = lookup_field k <$> recs.
Proof.
  intros Hout Hk. apply format_rows_Ok in Hout. unfold fields.
  induction Hout as [|rec o recs outs (d & -> & Hd) _ IH]; [done|].
  rewrite !fmap_cons, IH. f_equal. simpl. by eapply decoded_lookup.
Qed.

Lemma get_guilds_unfold self pool :
  get_guilds json_loads self pool
  = mapM (λ r, format_json json_loads self (Some (guilds_select pool r)))
      (latest_per_guild pool).
Proof. unfold get_guilds, format_rows. by rewrite mapM_fmap. Qed.

Lemma py_text_inj : Inj (=) (=) py_text.
Proof. intros [a|] [b|]; simpl; congruence. Qed.

(** C4. [get_guilds] returns one record for each row of a list of snapshots
    in which no [guild_id] occurs twice, each of them a snapshot with the
    latest [capture_date] of its guild, and every guild of the table has
    one; the [guild_id] fields of the records it returns are pairwise
    different. *)
Theorem get_guilds_one_latest_snapshot_per_guild self pool :
  ∃ L : list guild_row,
    get_guilds json_loads self pool
    = mapM (λ r, format_json json_loads self (Some (guilds_select pool r))) L ∧
    NoDup (guild_id <$> L) ∧
    (∀ r, r ∈ L →
       r ∈ guilds pool ∧
       ∀ r', r' ∈ guilds pool → guild_id r' = guild_id r →
             no_later (capture_date r') (capture_date r)) ∧
    (∀ r', r' ∈ guilds pool → ∃ r, r ∈ L ∧ guild_id r = guild_id r') ∧
    (∀ outs, get_guilds json_loads self pool = Ok outs →
       length outs = length L ∧
       ("guild_id" ∉ json_keys self → NoDup (fields "guild_id" outs))).
Proof.
  exists (latest_per_guild pool). split_and!.
  - apply get_guilds_unfold.
  - apply latest_rows_NoDup.
  - intros r Hr. split.
    + by eapply latest_rows_elem.
    + intros r' Hr' E. by eapply latest_rows_latest.
  - intros r' Hr'. by apply latest_rows_complete.
  - intros outs Hout. unfold get_guilds in Hout. split.
    + apply format_rows_Ok, Forall2_length in Hout.
      by rewrite length_fmap in Hout.
    + intros Hk. rewrite (format_rows_fields _ _ _ _ Hout Hk).
      rewrite <- list_fmap_compose.
      assert (E : lookup_field "guild_id" ∘ guilds_select pool
                  = (Some ∘ py_text) ∘ guild_id) by done.
      rewrite E, list_fmap_compose.
      apply NoDup_fmap_2; [|apply latest_rows_NoDup].
      intros a b [=]. by apply py_text_inj.
Qed.

(** C8. [get_guild_metrics] and [get_guild_history] return one record for
    each snapshot of [gid], in an order in which [capture_date] never
    decreases; with no snapshot of [gid] both return the empty list. *)
Theorem get_guild_metrics_and_history_oldest_first self pool gid :
  ∃ L : list guild_row,
    L ≡ₚ filter (λ r, guild_id r = Some gid) (guilds pool) ∧
    StronglySorted (λ a b, no_later (capture_date a) (capture_date b)) L ∧
    get_guild_metrics json_loads self pool gid
    = mapM (λ r, format_json json_loads self (Some (metrics_select pool r))) L ∧
    get_guild_history json_loads self pool gid
    = mapM (λ r, format_json json_loads self (Some (history_select pool r))) L ∧
    ((∀ r, r ∈ guilds pool → guild_id r ≠ Some gid) →
       get_guild_metrics json_loads self pool gid = Ok [] ∧
       get_guild_history json_loads self pool gid = Ok []).
Proof.
  exists (snapshots_of_guild pool gid).
  assert (Hunfold : ∀ (sel : connection → guild_row → record),
    match sel pool <$> snapshots_of_guild pool gid with
    | [] => mret []
    | _ => format_rows json_loads self (sel pool <$> snapshots_of_guild pool gid)
    end
    = mapM (λ r, format_json json_loads self (Some (sel pool r)))
        (snapshots_of_guild pool gid)).
  { intros sel. unfold format_rows. rewrite mapM_fmap.
    by destruct (snapshots_of_guild pool gid). }
  split_and!.
  - apply sort_by_perm.
  - apply sorted_by_capture_date.
  - apply (Hunfold metrics_select).
  - apply (Hunfold history_select).
  - intros Hnone. unfold get_guild_metrics, get_guild_history, snapshots_of_guild.
    rewrite filter_none, sort_by_nil; [done|]. intros r Hr. by apply Hnone.
Qed.

End returned_fields.

(** * Facts about the upsert *)

Section upsert_facts.
Implicit Types (t : list info_row) (r : info_row) (gid d : string).

Lemma set_discord_guild_id gid d r :
  info_guild_id (set_discord gid d r) = info_guild_id r.
Proof. unfold set_discord. by case_decide. Qed.

Lemma set_discord_match gid d r :
  sql_eq (info_guild_id r) gid →
  set_discord gid d r = {| info_guild_id := Some gid; discord := Some d |}.
Proof. intros E. unfold set_discord. rewrite decide_True by done. by rewrite E. Qed.

Lemma set_discord_other gid d r :
  ¬ sql_eq (info_guild_id r) gid → set_discord gid d r = r.
Proof. intros E. unfold set_discord. by rewrite decide_False. Qed.

Lemma set_discord_twice gid d1 d2 r :
  set_discord gid d2 (set_discord gid d1 r) = set_discord gid d2 r.
Proof.
  destruct (decide (sql_eq (info_guild_id r) gid)) as [E|E].
  - rewrite (set_discord_match gid d1 r E), (set_discord_match gid d2 r E).
    by apply set_discord_match.
  - by rewrite (set_discord_other gid d1 r E).
Qed.

Lemma filter_set_discord gid' gid d t :
  filter (λ r, sql_eq (info_guild_id r) gid') (set_discord gid d <$> t)
  = set_discord gid d <$> filter (λ r, sql_eq (info_guild_id r) gid') t.
Proof.
  induction t as [|r t IH]; [done|].
  rewrite fmap_cons, !filter_cons, set_discord_guild_id, IH.
  by case_decide.
Qed.

Lemma set_discord_absent gid d t :
  ¬ Exists (λ r, sql_eq (info_guild_id r) gid) t → set_discord gid d <$> t = t.
Proof.
  rewrite <- Forall_Exists_neg. induction 1 as [|r t Hr _ IH]; [done|].
  by rewrite fmap_cons, IH, set_discord_other.
Qed.

Lemma upsert_present gid d t :
  Exists (λ r, sql_eq (info_guild_id r) gid) (upsert gid d t).
Proof.
  unfold upsert. case_decide as E.
  - apply Exists_fmap. eapply Exists_impl; [done|].
    intros r Hr. simpl. by rewrite set_discord_guild_id.
  - apply Exists_app. right. by left.
Qed.

(** Last write wins, on the whole table. *)
Lemma upsert_upsert gid d1 d2 t :
  upsert gid d2 (upsert gid d1 t) = upsert gid d2 t.
Proof.
  unfold upsert at 1. rewrite decide_True by apply upsert_present.
  unfold upsert. case_decide as E.
  - rewrite <- list_fmap_compose. apply list_fmap_ext.
    intros _ r _. apply set_discord_twice.
  - rewrite fmap_app, set_discord_absent by done.
    f_equal. simpl. f_equal. by apply set_discord_match.
Qed.

(** After an upsert the table has exactly one row of the guild. *)
Lemma upsert_rows_of_guild gid d t :
  unique_guild_id t →
  filter (λ r, sql_eq (info_guild_id r) gid) (upsert gid d t)
  = [ {| info_guild_id := Some gid; discord := Some d |} ].
Proof.
  intros Hu. unfold upsert. case_decide as E.
  - rewrite filter_set_discord.
    specialize (Hu gid).
    destruct (filter _ t) as [|r [|r' k]] eqn:Ef; simpl in Hu; [|clear Hu|lia].
    + apply Exists_exists in E as (r & Hr & Er).
      assert (Hin : r ∈ filter (λ r, sql_eq (info_guild_id r) gid) t)
        by by apply list_elem_of_filter.
      rewrite Ef in Hin. by apply elem_of_nil in Hin.
    + assert (Hin : r ∈ filter (λ r, sql_eq (info_guild_id r) gid) t)
        by (rewrite Ef; left).
      apply list_elem_of_filter in Hin as [Er _].
      simpl. by rewrite set_discord_match.
  - rewrite filter_app, filter_none.
    + by rewrite filter_cons_True.
    + intros r Hr Er. apply E, Exists_exists. eauto.
Qed.

(** The unique index is kept. *)
Lemma upsert_unique gid d t :
  unique_guild_id t → unique_guild_id (upsert gid d t).
Proof.
  intros Hu gid'. unfold upsert. case_decide as E.
  - rewrite filter_set_discord, length_fmap. apply Hu.
  - rewrite filter_app, length_app.
    destruct (decide (gid' = gid)) as [->|Hne].
    + rewrite filter_none; [by rewrite filter_cons_True|].
      intros r Hr Er. apply E, Exists_exists. eauto.
    + rewrite (filter_cons_False _ {| info_guild_id := Some gid |}).
      * specialize (Hu gid'). simpl. lia.
      * unfold sql_eq. simpl. congruence.
Qed.

End upsert_facts.

(** * Facts about [ROUND] *)

Lemma div_half_away_nearest d h :
  0 < h →
  2 * Z.abs (div_half_away d (2 * h) * (2 * h) - d) ≤ 2 * h ∧
  (2 * Z.abs (div_half_away d (2 * h) * (2 * h) - d) = 2 * h →
   Z.abs d < Z.abs (div_half_away d (2 * h) * (2 * h))).
Proof.
  intros Hh. unfold div_half_away.
  replace (2 * h / 2) with h by (apply Z.div_unique_exact; lia).
  pose proof (Z.div_mod (Z.abs d + h) (2 * h) ltac:(lia)) as Hdm.
  pose proof (Z.mod_pos_bound (Z.abs d + h) (2 * h) ltac:(lia)) as Hm.
  set (q := (Z.abs d + h) / (2 * h)) in *.
  assert (0 ≤ q) by (apply Z.div_pos; lia).
  destruct (Z.sgn_spec d) as [(? & ->)|[(? & ->)|(? & ->)]]; nia.
Qed.

Lemma pow10_even (k : nat) : (0 < k)%nat → 10 ^ Z.of_nat k = 2 * (5 * 10 ^ Z.of_nat (k - 1)).
Proof.
  intros Hk. replace (Z.of_nat k) with (1 + Z.of_nat (k - 1)) by lia.
  rewrite Z.pow_add_r by lia. lia.
Qed.

(** [ROUND] of a finite [numeric] has the display scale asked for, is a
    nearest decimal of that scale, and takes a tie away from zero. *)
Lemma sql_round_finite d sc s :
  ∃ d', sql_round (NFin d sc) s = NFin d' s ∧
        2 * Z.abs (d' * 10 ^ Z.of_nat sc - d * 10 ^ Z.of_nat s) ≤ 10 ^ Z.of_nat sc ∧
        (2 * Z.abs (d' * 10 ^ Z.of_nat sc - d * 10 ^ Z.of_nat s) = 10 ^ Z.of_nat sc →
         Z.abs (d * 10 ^ Z.of_nat s) < Z.abs (d' * 10 ^ Z.of_nat sc)).
Proof.
  unfold sql_round. destruct (sc <=? s)%nat eqn:E.
  - apply Nat.leb_le in E. eexists. split; [done|].
    assert (E10 : 10 ^ Z.of_nat s = 10 ^ Z.of_nat (s - sc) * 10 ^ Z.of_nat sc).
    { rewrite <- Z.pow_add_r by lia. f_equal. lia. }
    assert (0 < 10 ^ Z.of_nat sc) by (apply Z.pow_pos_nonneg; lia).
    rewrite E10.
    replace (d * 10 ^ Z.of_nat (s - sc) * 10 ^ Z.of_nat sc
             - d * (10 ^ Z.of_nat (s - sc) * 10 ^ Z.of_nat sc)) with 0 by lia.
    simpl. lia.
  - apply Nat.leb_gt in E. eexists. split; [done|].
    assert (E10 : 10 ^ Z.of_nat sc = 10 ^ Z.of_nat (sc - s) * 10 ^ Z.of_nat s).
    { rewrite <- Z.pow_add_r by lia. f_equal. lia. }
    assert (Hb : 0 < 10 ^ Z.of_nat s) by (apply Z.pow_pos_nonneg; lia).
    rewrite E10, (pow10_even (sc - s)) by lia.
    set (b := 10 ^ Z.of_nat s) in *.
    set (h := 5 * 10 ^ Z.of_nat (sc - s - 1)).
    assert (Hh : 0 < h).
    { unfold h. assert (0 < 10 ^ Z.of_nat (sc - s - 1)) by (apply Z.pow_pos_nonneg; lia). lia. }
    destruct (div_half_away_nearest d h Hh) as [Hn Ht].
    set (q := div_half_away d (2 * h)) in *.
    replace (q * (2 * h * b) - d * b) with ((q * (2 * h) - d) * b) by lia.
    replace (q * (2 * h * b)) with (q * (2 * h) * b) by lia.
    assert (Habs : ∀ x, Z.abs (x * b) = Z.abs x * b).
    { intros x. by rewrite Z.abs_mul, (Z.abs_eq b) by lia. }
    rewrite !Habs.
    split; [nia|]. intros Heq. apply Z.mul_lt_mono_pos_r; [done|]. apply Ht. nia.
Qed.

Section more_operation_facts.
Context `{Floats} `{Collation} `{Sorting}.
Variable json_loads : value → result value.

(** C2, as the code has it. [format_json] decodes exactly the values of the
    keys in [json_keys] and keeps the others; [get_guilds], [get_guild],
    [get_guild_metrics], [get_guild_history] and [get_players] return what
    it makes of the rows of their statements; [get_id_name_autocomplete],
    [get_names] and [get_guild_discord] return the stored values as they
    are, whatever [json_keys] is. *)
Theorem format_json_decodes_json_keys_of_five_operations self pool gid uuids conn :
  (∀ rec out,
     format_json json_loads self (Some rec) = Ok out
     ↔ ∃ d, out = Some d ∧ Forall2 (decoded json_loads self) rec d) ∧
  format_json json_loads self None = Ok None ∧
  get_guilds json_loads self pool
  = mapM (λ r, format_json json_loads self (Some (guilds_select pool r)))
      (latest_per_guild pool) ∧
  get_guild json_loads self pool gid conn
  = format_json json_loads self
      (guild_select (handle pool conn) <$> head (latest_of_guild (handle pool conn) gid)) ∧
  get_guild_metrics json_loads self pool gid
  = mapM (λ r, format_json json_loads self (Some (metrics_select pool r)))
      (snapshots_of_guild pool gid) ∧
  get_guild_history json_loads self pool gid
  = mapM (λ r, format_json json_loads self (Some (history_select pool r)))
      (snapshots_of_guild pool gid) ∧
  get_players json_loads self pool uuids conn
  = mapM (λ r, format_json json_loads self (Some (players_select (handle pool conn) r)))
      (players_among (handle pool conn) uuids) ∧
  get_id_name_autocomplete self pool
  = Ok ((λ r, [("id", py_text (guild_id r)); ("name", py_text (guild_name r))])
          <$> latest_per_guild pool) ∧
  get_names self pool uuids
  = Ok (foldl (λ d r, <[uuid r := py_text (name r)]> d) ∅ (players_among pool uuids)) ∧
  get_guild_discord self pool gid conn
  = Ok (from_option (λ r, py_text (discord r)) VNone
          (head (filter (λ r, info_guild_id r = Some gid)
                   (guild_information (handle pool conn))))).
Proof.
  split_and!; try done.
  - intros rec out. apply format_json_Ok.
  - apply get_guilds_unfold.
  - unfold get_guild. by destruct (latest_of_guild _ _).
  - unfold get_guild_metrics, format_rows. rewrite mapM_fmap.
    by destruct (snapshots_of_guild pool gid).
  - unfold get_guild_history, format_rows. rewrite mapM_fmap.
    by destruct (snapshots_of_guild pool gid).
  - unfold get_players, format_rows. by rewrite mapM_fmap.
  - unfold get_guild_discord. by destruct (head _).
Qed.

(** C3, as the code has it. A connection passed to [get_guild],
    [get_players] or [get_guild_discord] is the one their statement runs
    on, and without one (or with None) it runs on the pool; a call of one
    of the other six that passes a connection raises TypeError, and without
    one their statement runs on the pool. *)
Theorem three_operations_take_a_connection self pool req c :
  match req with
  | GetGuild _ | GetPlayers _ | GetGuildDiscord _ =>
      (call json_loads self pool req (Some (Some c))).1
      = (call json_loads self c req None).1 ∧
      call json_loads self pool req (Some None) = call json_loads self pool req None
  | _ =>
      (∀ passed, call json_loads self pool req (Some passed) = (Raise TypeError, pool)) ∧
      call json_loads self pool req None = run json_loads self pool req None
  end.
Proof. by destruct req. Qed.

(** C7. On a table with the unique index, two calls of [upsert_guild_info]
    for [gid] both return and leave exactly one row of [gid], holding the
    discord id of the second call, which [get_guild_discord] then returns;
    a second call with the same discord id changes nothing. *)
Theorem upsert_guild_info_last_write_wins self pool gid d1 d2 :
  unique_guild_id (guild_information pool) →
  ∃ p1 p2,
    upsert_guild_info self pool gid d1 = Ok p1 ∧
    upsert_guild_info self p1 gid d2 = Ok p2 ∧
    filter (λ r, info_guild_id r = Some gid) (guild_information p2)
    = [ {| info_guild_id := Some gid; discord := Some d2 |} ] ∧
    unique_guild_id (guild_information p2) ∧
    get_guild_discord self p2 gid None = Ok (VStr d2) ∧
    (d1 = d2 → p2 = p1).
Proof.
  intros Hu. eexists _, _. split_and!; [done|done|..]; simpl.
  - rewrite upsert_upsert. by apply upsert_rows_of_guild.
  - by do 2 apply upsert_unique.
  - unfold get_guild_discord. simpl.
    rewrite upsert_upsert, upsert_rows_of_guild; done.
  - intros ->. by rewrite upsert_upsert.
Qed.

End more_operation_facts.

Section rounded_and_counted_fields.
Context `{Floats} `{Collation} `{Sorting}.
Variable json_loads : value → result value.

Lemma get_guild_metrics_fields self pool gid outs k :
  get_guild_metrics json_loads self pool gid = Ok outs → k ∉ json_keys self →
  fields k outs = (λ r, lookup_field k (metrics_select pool r)) <$> snapshots_of_guild pool gid.
Proof.
  unfold get_guild_metrics. intros Hout Hk.
  destruct (snapshots_of_guild pool gid) as [|r L] eqn:E.
  - by injection Hout as <-.
  - rewrite <- E in *. clear E.
    destruct (metrics_select pool <$> snapshots_of_guild pool gid) eqn:E';
      rewrite <- ?E' in Hout.
    + injection Hout as <-. by destruct (snapshots_of_guild pool gid).
    + rewrite (format_rows_fields _ _ _ _ _ Hout Hk). by rewrite <- list_fmap_compose.
Qed.

Lemma get_guilds_fields self pool outs k :
  get_guilds json_loads self pool = Ok outs → k ∉ json_keys self →
  fields k outs = (λ r, lookup_field k (guilds_select pool r)) <$> latest_per_guild pool.
Proof.
  unfold get_guilds. intros Hout Hk.
  rewrite (format_rows_fields _ _ _ _ _ Hout Hk). by rewrite <- list_fmap_compose.
Qed.

Lemma get_players_fields self pool uuids conn outs k :
  get_players json_loads self pool uuids conn = Ok outs → k ∉ json_keys self →
  fields k outs
  = (λ r, lookup_field k (players_select (handle pool conn) r))
      <$> players_among (handle pool conn) uuids.
Proof.
  unfold get_players. intros Hout Hk.
  rewrite (format_rows_fields _ _ _ _ _ Hout Hk). by rewrite <- list_fmap_compose.
Qed.

Lemma get_guild_field self pool gid conn out k :
  get_guild json_loads self pool gid conn = Ok out → k ∉ json_keys self →
  out ≫= lookup_field k
  = head (latest_of_guild (handle pool conn) gid)
      ≫= λ r, lookup_field k (guild_select (handle pool conn) r).
Proof.
  unfold get_guild. intros Hout Hk.
  destruct (latest_of_guild (handle pool conn) gid) as [|r L].
  - change (format_json json_loads self None = Ok out) in Hout.
    by injection Hout as <-.
  - change (format_json json_loads self (Some (guild_select (handle pool conn) r)) = Ok out)
      in Hout.
    by apply (format_json_field json_loads self _ out k).
Qed.

(** C9. In the records [get_guilds], [get_guild] and [get_guild_metrics]
    return, each of the four averages, and in those of [get_players] each of
    weight, average_skill, catacomb and total_slayer, is
    [ROUND(column::numeric, 2)::float] of the selected row.  [ROUND] of a
    finite value [d * 10^-sc] is a decimal [d' * 10^-2] with two places, at
    most half a hundredth away from it, and larger in magnitude when exactly
    half a hundredth away (a tie goes away from zero): a value that casts to
    12.345 is returned as 12.35. *)
Theorem averages_and_stats_rounded_to_two_places self pool gid uuids conn :
  (∀ k col outs, (k, col) ∈ guild_averages → k ∉ json_keys self →
     get_guilds json_loads self pool = Ok outs →
     fields k outs = (λ r, Some (round2 (col r))) <$> latest_per_guild pool) ∧
  (∀ k col out, (k, col) ∈ guild_averages → k ∉ json_keys self →
     get_guild json_loads self pool gid conn = Ok out →
     out ≫= lookup_field k
     = (λ r, round2 (col r)) <$> head (latest_of_guild (handle pool conn) gid)) ∧
  (∀ k col outs, (k, col) ∈ guild_averages → k ∉ json_keys self →
     get_guild_metrics json_loads self pool gid = Ok outs →
     fields k outs = (λ r, Some (round2 (col r))) <$> snapshots_of_guild pool gid) ∧
  (∀ k col outs, (k, col) ∈ player_stats → k ∉ json_keys self →
     get_players json_loads self pool uuids conn = Ok outs →
     fields k outs
     = (λ r, Some (round2 (col r))) <$> players_among (handle pool conn) uuids) ∧
  (∀ x, round2 (Some x) = VFloat (float8_of_numeric (sql_round (numeric_of_real x) 2))) ∧
  (∀ d sc, ∃ d',
     sql_round (NFin d sc) 2 = NFin d' 2 ∧
     2 * Z.abs (d' * 10 ^ Z.of_nat sc - d * 10 ^ 2) ≤ 10 ^ Z.of_nat sc ∧
     (2 * Z.abs (d' * 10 ^ Z.of_nat sc - d * 10 ^ 2) = 10 ^ Z.of_nat sc →
      Z.abs (d * 10 ^ 2) < Z.abs (d' * 10 ^ Z.of_nat sc))) ∧
  (∀ x, numeric_of_real x = NFin 12345 3 →
     round2 (Some x) = VFloat (float8_of_numeric (NFin 1235 2))).
Proof.
  split_and!.
  - intros k col outs Hin Hk Hout. rewrite (get_guilds_fields _ _ _ _ Hout Hk).
    unfold guild_averages in Hin.
    repeat (apply elem_of_cons in Hin as [[= -> ->]|Hin]; [done|]).
    by apply elem_of_nil in Hin.
  - intros k col out Hin Hk Hout. rewrite (get_guild_field _ _ _ _ _ _ Hout Hk).
    unfold guild_averages in Hin.
    repeat (apply elem_of_cons in Hin as [[= -> ->]|Hin];
            [by destruct (head _)|]).
    by apply elem_of_nil in Hin.
  - intros k col outs Hin Hk Hout. rewrite (get_guild_metrics_fields _ _ _ _ _ Hout Hk).
    unfold guild_averages in Hin.
    repeat (apply elem_of_cons in Hin as [[= -> ->]|Hin]; [done|]).
    by apply elem_of_nil in Hin.
  - intros k col outs Hin Hk Hout. rewrite (get_players_fields _ _ _ _ _ _ Hout Hk).
    unfold player_stats in Hin.
    repeat (apply elem_of_cons in Hin as [[= -> ->]|Hin]; [done|]).
    by apply elem_of_nil in Hin.
  - done.
  - intros d sc. apply (sql_round_finite d sc 2).
  - intros x Ex. unfold round2. simpl. by rewrite Ex.
Qed.

(** C10. The [players] fields [get_guilds] returns are [array_length] of the
    stored arrays, and the [member_count] fields [get_guild_metrics] returns
    are their [cardinality]: for a row whose array is empty the first is
    None and the second 0, and for a row whose array is not empty both are
    its length. *)
Theorem member_count_none_versus_zero self pool gid outs_g outs_m :
  "players" ∉ json_keys self → "member_count" ∉ json_keys self →
  get_guilds json_loads self pool = Ok outs_g →
  get_guild_metrics json_loads self pool gid = Ok outs_m →
  fields "players" outs_g
  = (λ r, Some (py_int (array_length (players r)))) <$> latest_per_guild pool ∧
  fields "member_count" outs_m
  = (λ r, Some (py_int (cardinality (players r)))) <$> snapshots_of_guild pool gid ∧
  (∀ r : guild_row, players r = Some [] →
     py_int (array_length (players r)) = VNone ∧
     py_int (cardinality (players r)) = VInt 0) ∧
  (∀ (r : guild_row) l, players r = Some l → l ≠ [] →
     py_int (array_length (players r)) = VInt (Z.of_nat (length l)) ∧
     py_int (cardinality (players r)) = VInt (Z.of_nat (length l))).
Proof.
  intros Hp Hm Hg Hme. split_and!.
  - by rewrite (get_guilds_fields _ _ _ _ Hg Hp).
  - by rewrite (get_guild_metrics_fields _ _ _ _ _ Hme Hm).
  - by intros r ->.
  - intros r l -> Hl. by destruct l.
Qed.

End rounded_and_counted_fields.

(** * More about the operations *)

(** DISTINCT ON keeps the order of the rows it keeps. *)
Lemma distinct_after_sorted {A K} `{EqDecision K} (key : A → K) (R : relation A) prev l :
  StronglySorted R l → StronglySorted R (distinct_after key prev l).
Proof.
  intros Hs. revert prev. induction Hs as [|x l Hs IH Hx]; intros prev; simpl.
  { constructor. }
  case_decide; [apply IH|]. constructor; [apply IH|].
  apply Forall_forall. intros y Hy. rewrite Forall_forall in Hx.
  by eapply Hx, distinct_after_elem.
Qed.

Lemma distinct_on_sorted {A K} `{EqDecision K} (key : A → K) (R : relation A) l :
  StronglySorted R l → StronglySorted R (distinct_on key l).
Proof.
  destruct l as [|x l]; simpl; [done|]. intros Hs.
  apply StronglySorted_inv in Hs as [Hs Hx]. constructor.
  - by apply distinct_after_sorted.
  - apply Forall_forall. intros y Hy. rewrite Forall_forall in Hx.
    by eapply Hx, distinct_after_elem.
Qed.

(** Sorted rows with pairwise different keys are strictly sorted. *)
Lemma sorted_NoDup_strict {A K} (key : A → K) (R : relation A) l :
  StronglySorted R l → NoDup (key <$> l) →
  StronglySorted (λ a b, R a b ∧ key a ≠ key b) l.
Proof.
  induction 1 as [|x l Hs IH Hx]; intros Hnd; [constructor|].
  rewrite fmap_cons in Hnd. apply NoDup_cons in Hnd as [Hnotin Hnd].
  constructor; [by apply IH|].
  apply Forall_forall. intros y Hy. rewrite Forall_forall in Hx.
  split; [by apply Hx|]. intros E. apply Hnotin. rewrite E.
  by apply list_elem_of_fmap_2.
Qed.

Lemma StronglySorted_weaken {A} (R1 R2 : relation A) l :
  (∀ x y, R1 x y → R2 x y) → StronglySorted R1 l → StronglySorted R2 l.
Proof.
  intros HR. induction 1 as [|x l Hs IH Hx]; constructor; [done|].
  eapply Forall_impl; [done|]. intros y. apply HR.
Qed.

Section exceptions.
Context `{Floats}.
Variable json_loads : value → result value.

(** A comprehension raises what its first failing item raises. *)
Lemma mapM_Raise {A B} (f : A → result B) l e :
  mapM f l = Raise e
  ↔ ∃ pre x suf, l = (pre ++ x :: suf)%list ∧ f x = Raise e ∧
                 Forall (λ y, ∃ z, f y = Ok z) pre.
Proof.
  induction l as [|x l IH]; simpl.
  - split; [done|]. intros (pre & y & suf & E & _). by destruct pre.
  - destruct (f x) as [z|e'] eqn:Ex; simpl.
    + assert (Hb : ∀ m : result (list B),
                (m ≫= λ k, mret (z :: k)) = Raise e ↔ m = Raise e).
      { intros [k|e']; simpl; [split; intros [=]|done]. }
      rewrite Hb, IH. split.
      * intros (pre & y & suf & -> & Ey & Hpre).
        exists (x :: pre), y, suf. split_and!; [done..|].
        constructor; eauto.
      * intros (pre & y & suf & E & Ey & Hpre).
        destruct pre as [|p pre]; simplify_eq/=; [congruence|].
        apply Forall_cons in Hpre as [_ Hpre]. eauto 6.
    + split.
      * intros [= ->]. exists [], x, l. by split_and!.
      * intros (pre & y & suf & E & Ey & Hpre).
        destruct pre as [|p pre]; simplify_eq/=; [congruence|].
        apply Forall_cons in Hpre as [[z Hz] _]. congruence.
Qed.

Lemma format_field_Raise self kv e :
  format_field json_loads self kv = Raise e
  ↔ kv.1 ∈ json_keys self ∧ json_loads kv.2 = Raise e.
Proof.
  unfold format_field. case_decide as Hk.
  - destruct (json_loads kv.2); simpl; split; try done.
    + by intros [_ ?].
    + by intros [= ->].
    + by intros [_ [= ->]].
  - split; [done|]. by intros [? _].
Qed.

(** X6. [format_json] raises exactly what [json.loads] raises on the first
    value it rejects among the keys of [json_keys], the values before it
    having been accepted; when it returns, the record has the same keys in
    the same order. *)
Theorem format_json_raises_at_first_rejected_value self rec :
  (∀ e, format_json json_loads self (Some rec) = Raise e
        ↔ ∃ pre kv suf,
            rec = (pre ++ kv :: suf)%list ∧
            kv.1 ∈ json_keys self ∧ json_loads kv.2 = Raise e ∧
            Forall (λ kv', kv'.1 ∈ json_keys self → ∃ v, json_loads kv'.2 = Ok v) pre) ∧
  (∀ out, format_json json_loads self (Some rec) = Ok out →
          ∃ d, out = Some d ∧ d.*1 = rec.*1).
Proof.
  split.
  - intros e. simpl.
    assert (Hfmap : Some <$> mapM (format_field json_loads self) rec = Raise e
                    ↔ mapM (format_field json_loads self) rec = Raise e).
    { destruct (mapM _ rec); simpl; split; congruence. }
    rewrite Hfmap, mapM_Raise. split.
    + intros (pre & kv & suf & -> & Hkv & Hpre).
      apply format_field_Raise in Hkv as [Hk Hl].
      exists pre, kv, suf. split_and!; [done..|].
      eapply Forall_impl; [done|]. intros kv' [z Hz] Hk'.
      apply format_field_Ok in Hz as [_ Hz]. rewrite decide_True in Hz by done. eauto.
    + intros (pre & kv & suf & -> & Hk & Hl & Hpre).
      exists pre, kv, suf. split_and!; [done| |].
      * by apply format_field_Raise.
      * eapply Forall_impl; [done|]. intros kv' Hkv'. simpl in Hkv'.
        destruct (decide (kv'.1 ∈ json_keys self)) as [Hk'|Hk'].
        -- destruct (Hkv' Hk') as [v Hv]. exists (kv'.1, v).
           apply format_field_Ok. split; [done|]. by rewrite decide_True.
        -- exists kv'. apply format_field_Ok. split; [done|]. by rewrite decide_False.
  - intros out Hout. apply format_json_Ok in Hout as (d & -> & Hd).
    exists d. split; [done|].
    induction Hd as [|kv kv' rec d [Ek _] _ IH]; [done|].
    rewrite !fmap_cons. by f_equal.
Qed.

End exceptions.

Section more_reads.
Context `{Floats} `{Collation} `{Sorting}.
Variable json_loads : value → result value.

(** X5. A [Database] as [__init__] leaves it decodes nothing: none of the
    five operations that shape rows with [format_json] raises, and each
    returns the records of its SELECT list as they are. *)
Theorem new_database_returns_the_selected_records pool gid uuids conn :
  get_guilds json_loads __init__ pool
  = Ok ((λ r, Some (guilds_select pool r)) <$> latest_per_guild pool) ∧
  get_guild json_loads __init__ pool gid conn
  = Ok (guild_select (handle pool conn) <$> head (latest_of_guild (handle pool conn) gid)) ∧
  get_guild_metrics json_loads __init__ pool gid
  = Ok ((λ r, Some (metrics_select pool r)) <$> snapshots_of_guild pool gid) ∧
  get_guild_history json_loads __init__ pool gid
  = Ok ((λ r, Some (history_select pool r)) <$> snapshots_of_guild pool gid) ∧
  get_players json_loads __init__ pool uuids conn
  = Ok ((λ r, Some (players_select (handle pool conn) r))
          <$> players_among (handle pool conn) uuids).
Proof.
  split_and!.
  - unfold get_guilds. rewrite format_rows_no_keys by done.
    by rewrite <- list_fmap_compose.
  - unfold get_guild. rewrite format_json_no_keys by done.
    by destruct (latest_of_guild _ _).
  - unfold get_guild_metrics.
    destruct (snapshots_of_guild pool gid) as [|r L] eqn:E; [done|].
    rewrite <- E. rewrite format_rows_no_keys by done.
    rewrite <- list_fmap_compose. by rewrite E.
  - unfold get_guild_history.
    destruct (snapshots_of_guild pool gid) as [|r L] eqn:E; [done|].
    rewrite <- E. rewrite format_rows_no_keys by done.
    rewrite <- list_fmap_compose. by rewrite E.
  - unfold get_players. rewrite format_rows_no_keys by done.
    by rewrite <- list_fmap_compose.
Qed.

(** In a dict built by assignments in a loop, a key holds what the last
    item with that key assigned. *)
Lemma foldl_insert_lookup {A K V} `{Countable K} (key : A → K) (val : A → V)
    (l : list A) (d : gmap K V) (k : K) :
  foldl (λ d x, <[key x := val x]> d) d l !! k
  = match last (filter (λ x, key x = k) l) with
    | Some x => Some (val x)
    | None => d !! k
    end.
Proof.
  revert d. induction l as [|x l IH]; intros d; [done|].
  simpl. rewrite IH, filter_cons. case_decide as E.
  - rewrite last_cons. destruct (last (filter _ l)); [done|].
    subst k. by rewrite lookup_insert_eq.
  - destruct (last (filter _ l)); [done|]. by rewrite lookup_insert_ne.
Qed.

Lemma players_among_of_uuid (c : connection) uuids u :
  filter (λ r, uuid r = Some u) (players_among c uuids)
  = if decide (u ∈ uuids) then filter (λ r, uuid r = Some u) (player_table c) else [].
Proof.
  unfold players_among. rewrite list_filter_filter. case_decide as Hu.
  - apply list_filter_iff. intros r. split; [by intros [? _]|].
    intros E. split; [done|]. unfold sql_any. by rewrite E.
  - apply filter_none. intros r _ [E Hany]. unfold sql_any in Hany.
    rewrite E in Hany. done.
Qed.

(** X1. [get_names] returns a dict whose keys are exactly the requested
    uuids that some row of [players] has: a requested uuid maps to the name
    of the last row stored with it, a uuid not requested or not stored is
    absent (not mapped to None), and None is never a key. *)
Theorem get_names_maps_the_stored_uuids_requested self pool uuids :
  ∃ d, get_names self pool uuids = Ok d ∧
       d !! None = None ∧
       (∀ u, d !! Some u
             = if decide (u ∈ uuids)
               then (λ r, py_text (name r))
                      <$> last (filter (λ r, uuid r = Some u) (player_table pool))
               else None) ∧
       (∀ u, is_Some (d !! Some u)
             ↔ u ∈ uuids ∧ ∃ r, r ∈ player_table pool ∧ uuid r = Some u).
Proof.
  eexists. split; [done|].
  assert (Hlook : ∀ u, foldl (λ d row, <[uuid row := py_text (name row)]> d)
                         (∅ : gmap (option string) value)
                         (players_among pool uuids) !! Some u
             = if decide (u ∈ uuids)
               then (λ r, py_text (name r))
                      <$> last (filter (λ r, uuid r = Some u) (player_table pool))
               else None).
  { intros u. rewrite foldl_insert_lookup, players_among_of_uuid.
    case_decide; [|done]. by destruct (last _). }
  split_and!.
  - rewrite foldl_insert_lookup.
    rewrite filter_none; [done|]. intros r Hr E.
    apply list_elem_of_filter in Hr as [Hany _].
    unfold sql_any in Hany. by rewrite E in Hany.
  - done.
  - intros u. rewrite Hlook. case_decide as Hu.
    + rewrite fmap_is_Some. split.
      * intros [r Hr]. split; [done|]. exists r.
        apply last_Some_elem_of, list_elem_of_filter in Hr. tauto.
      * intros [_ (r & Hr & E)].
        destruct (last (filter _ _)) as [r'|] eqn:El; [done|].
        apply last_None in El.
        assert (Hin : r ∈ filter (λ r, uuid r = Some u) (player_table pool))
          by by apply list_elem_of_filter.
        rewrite El in Hin. by apply elem_of_nil in Hin.
    + split; [by intros [? ?]|]. by intros [? _].
Qed.

(** X2. [get_players] returns one record for every stored row whose uuid is
    requested, in table order, and for no other row: rows are not reduced to
    the latest per uuid, a row with a NULL uuid is never returned, and an
    empty request returns the empty list. *)
Theorem get_players_one_record_per_stored_row self pool uuids conn :
  (∀ r, r ∈ players_among (handle pool conn) uuids
        ↔ r ∈ player_table (handle pool conn) ∧ ∃ u, uuid r = Some u ∧ u ∈ uuids) ∧
  players_among (handle pool conn) uuids `sublist_of` player_table (handle pool conn) ∧
  (∀ outs, get_players json_loads self pool uuids conn = Ok outs →
     length outs = length (players_among (handle pool conn) uuids) ∧
     ("uuid" ∉ json_keys self →
      fields "uuid" outs
      = (λ r, Some (py_text (uuid r))) <$> players_among (handle pool conn) uuids)) ∧
  get_players json_loads self pool [] conn = Ok [].
Proof.
  split_and!.
  - intros r. unfold players_among. rewrite list_elem_of_filter. unfold sql_any.
    destruct (uuid r) as [u|].
    + split; [intros [? ?]; eauto|]. by intros [? (u' & [= ->] & ?)].
    + split; [by intros [? _]|]. by intros [_ (? & ? & _)].
  - apply sublist_filter.
  - intros outs Hout. unfold get_players in Hout. split.
    + apply format_rows_Ok, Forall2_length in Hout.
      by rewrite length_fmap in Hout.
    + intros Hk. rewrite (format_rows_fields _ _ _ _ _ Hout Hk).
      by rewrite <- list_fmap_compose.
  - unfold get_players, players_among.
    rewrite filter_none; [done|]. intros r _ Hany. unfold sql_any in Hany.
    destruct (uuid r); [|done]. by apply elem_of_nil in Hany.
Qed.

Lemma get_guild_history_fields self pool gid outs k :
  get_guild_history json_loads self pool gid = Ok outs → k ∉ json_keys self →
  fields k outs = (λ r, lookup_field k (history_select pool r)) <$> snapshots_of_guild pool gid.
Proof.
  unfold get_guild_history. intros Hout Hk.
  destruct (snapshots_of_guild pool gid) as [|r L] eqn:E.
  - by injection Hout as <-.
  - rewrite <- E in *. clear E.
    destruct (history_select pool <$> snapshots_of_guild pool gid) eqn:E';
      rewrite <- ?E' in Hout.
    + injection Hout as <-. by destruct (snapshots_of_guild pool gid).
    + rewrite (format_rows_fields _ _ _ _ _ Hout Hk). by rewrite <- list_fmap_compose.
Qed.

(** X3. [get_guilds] and [get_id_name_autocomplete] return their records in
    the order of [ORDER BY guild_id]: strictly increasing [guild_id] in the
    collation of the database, a NULL [guild_id] last. *)
Theorem get_guilds_and_autocomplete_in_guild_id_order self pool :
  ∃ L : list guild_row,
    StronglySorted (λ a b, nulls_largest collate (guild_id a) (guild_id b) = Lt) L ∧
    get_guilds json_loads self pool
    = mapM (λ r, format_json json_loads self (Some (guilds_select pool r))) L ∧
    get_id_name_autocomplete self pool
    = Ok ((λ r, [("id", py_text (guild_id r)); ("name", py_text (guild_name r))]) <$> L).
Proof.
  exists (latest_per_guild pool). split_and!; [|apply get_guilds_unfold|done].
  eapply StronglySorted_weaken;
    [|apply (sorted_NoDup_strict guild_id (cmp_le by_guild_then_latest))].
  - intros a b [Hle Hne]. apply then_by_le_fst in Hle. unfold cmp_le, on_column in Hle.
    destruct (nulls_largest collate (guild_id a) (guild_id b)) eqn:E; [|done..].
    by apply nulls_largest_collate_eq in E.
  - apply distinct_on_sorted, sorted_by_guild_then_latest.
  - apply latest_rows_NoDup.
Qed.

(** X4. [get_id_name_autocomplete] lists the guilds of [get_guilds]: its
    ids and names are, in order, the [guild_id] and [guild_name] fields of
    the records [get_guilds] returns. *)
Theorem autocomplete_lists_the_guilds_of_get_guilds self pool outs :
  "guild_id" ∉ json_keys self → "guild_name" ∉ json_keys self →
  get_guilds json_loads self pool = Ok outs →
  ∃ pairs, get_id_name_autocomplete self pool = Ok pairs ∧
           length pairs = length outs ∧
           lookup_field "id" <$> pairs = fields "guild_id" outs ∧
           lookup_field "name" <$> pairs = fields "guild_name" outs.
Proof.
  intros Hid Hname Hout. eexists. split; [done|]. split_and!.
  - unfold get_guilds in Hout. apply format_rows_Ok, Forall2_length in Hout.
    by rewrite !length_fmap in *.
  - rewrite (get_guilds_fields _ _ _ _ _ Hout Hid). by rewrite <- list_fmap_compose.
  - rewrite (get_guilds_fields _ _ _ _ _ Hout Hname). by rewrite <- list_fmap_compose.
Qed.

(** X8. [get_guild_metrics] and [get_guild_history] describe the same
    snapshots in the same order: each [member_count] is the number of
    elements of the [players] list at the same position (None where the
    array is NULL), and the [time_difference] fields are the same. *)
Theorem member_count_is_the_length_of_history_players self pool gid outs_m outs_h :
  "member_count" ∉ json_keys self → "players" ∉ json_keys self →
  "time_difference" ∉ json_keys self →
  get_guild_metrics json_loads self pool gid = Ok outs_m →
  get_guild_history json_loads self pool gid = Ok outs_h →
  length outs_m = length outs_h ∧
  fields "member_count" outs_m
  = (λ v : option value, count_of_list <$> v) <$> fields "players" outs_h ∧
  fields "time_difference" outs_m = fields "time_difference" outs_h.
Proof.
  intros Hm Hp Ht Houtm Houth.
  pose proof (get_guild_metrics_fields _ _ _ _ _ _ Houtm Hm) as Em.
  pose proof (get_guild_history_fields _ _ _ _ _ Houth Hp) as Ep.
  pose proof (get_guild_metrics_fields _ _ _ _ _ _ Houtm Ht) as Etm.
  pose proof (get_guild_history_fields _ _ _ _ _ Houth Ht) as Eth.
  split_and!.
  - apply (f_equal length) in Em, Ep. unfold fields in Em, Ep.
    rewrite !length_fmap in Em, Ep. congruence.
  - rewrite Em, Ep, <- list_fmap_compose. apply list_fmap_ext. intros _ r _. simpl.
    destruct (players r) as [l|]; simpl; [|done]. by rewrite length_fmap.
  - by rewrite Etm, Eth.
Qed.

(** X10. With a session time zone whose cast of timestamps keeps their
    order, the elapsed times [get_guild_metrics] and [get_guild_history]
    return never increase along the list: the oldest snapshot comes first. *)
Theorem elapsed_times_never_increase self pool gid :
  (∀ a b, a ≤ b → timestamptz_of pool a ≤ timestamptz_of pool b) →
  "time_difference" ∉ json_keys self →
  ∀ outs,
    get_guild_metrics json_loads self pool gid = Ok outs ∨
    get_guild_history json_loads self pool gid = Ok outs →
    StronglySorted
      (λ a b, ∀ x y, a = Some (VTimedelta x) → b = Some (VTimedelta y) → y ≤ x)
      (fields "time_difference" outs).
Proof.
  intros Hmono Hk outs Hout.
  assert (E : fields "time_difference" outs
              = (λ r, Some (time_difference pool (capture_date r)))
                  <$> snapshots_of_guild pool gid).
  { destruct Hout as [Hout|Hout].
    - by rewrite (get_guild_metrics_fields _ _ _ _ _ _ Hout Hk).
    - by rewrite (get_guild_history_fields _ _ _ _ _ Hout Hk). }
  rewrite E.
  eapply StronglySorted_fmap; [|apply sorted_by_capture_date].
  intros r1 r2 Hle x y [= E1] [= E2].
  unfold cmp_le, by_capture_date, on_column, time_difference in *.
  destruct (capture_date r1) as [t1|], (capture_date r2) as [t2|];
    simplify_eq/=.
  apply Z.compare_ngt_iff in Hle. unfold at_time_zone_utc.
  assert (Ht : t1 ≤ t2) by lia.
  pose proof (Hmono _ _ (Hmono _ _ Ht)). lia.
Qed.

End more_reads.

Section more_writes.
Context `{Floats} `{Collation} `{Sorting}.
Variable json_loads : value → result value.

Lemma upsert_rows_of_other_guild gid d gid' (t : list info_row) :
  gid' ≠ gid →
  filter (λ r, sql_eq (info_guild_id r) gid') (upsert gid d t)
  = filter (λ r, sql_eq (info_guild_id r) gid') t.
Proof.
  intros Hne. unfold upsert. case_decide as E.
  - rewrite filter_set_discord.
    rewrite <- (list_fmap_id (filter _ t)) at 2.
    apply list_fmap_ext. intros i r Hr.
    apply list_elem_of_lookup_2, list_elem_of_filter in Hr as [Er _].
    unfold id. apply set_discord_other. unfold sql_eq in *. rewrite Er. by intros [= ->].
  - rewrite filter_app, filter_cons_False, filter_nil, app_nil_r; [done|].
    unfold sql_eq. simpl. congruence.
Qed.



(** X7. [upsert_guild_info] touches the mapping of one guild only: the
    discord id of every other guild reads as before, the rows of the other
    guilds and the guilds and players tables are unchanged, and the table
    grows by one row when the guild had no mapping and keeps its size when
    it had one. *)
Theorem upsert_guild_info_touches_one_guild self pool gid d gid' :
  gid' ≠ gid →
  ∃ p, upsert_guild_info self pool gid d = Ok p ∧
       get_guild_discord self p gid' None = get_guild_discord self pool gid' None ∧
       filter (λ r, info_guild_id r ≠ Some gid) (guild_information p)
       = filter (λ r, info_guild_id r ≠ Some gid) (guild_information pool) ∧
       guilds p = guilds pool ∧ player_table p = player_table pool ∧
       length (guild_information p)
       = if decide (Exists (λ r, info_guild_id r = Some gid) (guild_information pool))
         then length (guild_information pool)
         else S (length (guild_information pool)).
Proof.
  intros Hne. eexists. split; [done|]. simpl. split_and!; [|..|done|done|].
  - unfold get_guild_discord. simpl. by rewrite upsert_rows_of_other_guild.
  - unfold upsert. case_decide as E.
    + assert (Hf : ∀ t : list info_row,
                filter (λ r, info_guild_id r ≠ Some gid) (set_discord gid d <$> t)
                = filter (λ r, info_guild_id r ≠ Some gid) t).
      { induction t as [|r t IH]; [done|].
        rewrite fmap_cons, !filter_cons, set_discord_guild_id, IH.
        case_decide as Er; [|done]. by rewrite set_discord_other. }
      apply Hf.
    + rewrite filter_app, filter_cons_False, filter_nil, app_nil_r; [done|].
      simpl. by intros [].
  - unfold upsert. unfold sql_eq. case_decide.
    + by rewrite length_fmap.
    + rewrite length_app. simpl. lia.
Qed.

End more_writes.

Lemma no_later_antisym a b : no_later a b → no_later b a → a = b.
Proof.
  intros Hab Hba.
  pose proof (cmp_le_antisym_eq _ (weak_order_nulls_largest _ weak_order_Z) a b Hab Hba) as E.
  destruct a, b; simpl in E; try done. apply Z.compare_eq_iff in E. by subst.
Qed.

Section get_guild_and_get_guilds.
Context `{Floats} `{Collation} `{Sorting}.
Variable json_loads : value → result value.

Lemma summary_keys_selected_alike (c : connection) (r : guild_row) k :
  k ∈ guild_summary_keys →
  lookup_field k (guilds_select c r) = lookup_field k (guild_select c r).
Proof.
  unfold guild_summary_keys. intros Hk.
  repeat (apply elem_of_cons in Hk as [->|Hk]; [done|]).
  by apply elem_of_nil in Hk.
Qed.

(** X9. For a guild whose snapshots have pairwise different capture dates,
    [get_guild] and [get_guilds] describe the same snapshot: the record of
    [get_guild] and one record of [get_guilds] have the same averages,
    guild_id (the guild asked for), guild_name, time_difference and
    scammers, and when the players list of the first is not empty, the
    players count of the second is its length. *)
Theorem get_guild_agrees_with_get_guilds self pool gid outs out :
  (∀ r r', r ∈ guilds pool → r' ∈ guilds pool →
           guild_id r = Some gid → guild_id r' = Some gid →
           capture_date r = capture_date r' → r = r') →
  (∃ r0, r0 ∈ guilds pool ∧ guild_id r0 = Some gid) →
  get_guilds json_loads self pool = Ok outs →
  get_guild json_loads self pool gid None = Ok out →
  ∃ o, o ∈ outs ∧
       (∀ k, k ∈ guild_summary_keys → k ∉ json_keys self →
             o ≫= lookup_field k = out ≫= lookup_field k) ∧
       ("guild_id" ∉ json_keys self →
        out ≫= lookup_field "guild_id" = Some (VStr gid)) ∧
       ("players" ∉ json_keys self →
        ∀ l, out ≫= lookup_field "players" = Some (VList l) → l ≠ [] →
             o ≫= lookup_field "players" = Some (VInt (Z.of_nat (length l)))).
Proof.
  intros Huniq (r0 & Hr0 & Eg0) Houts Hout.
  (* the row of [get_guild] *)
  unfold get_guild in Hout. simpl in Hout.
  destruct (latest_of_guild pool gid) as [|r2 rest] eqn:E2.
  { by destruct (proj1 (latest_of_guild_nil _ _) E2 r0 Hr0). }
  assert (Hr2 : r2 ∈ latest_of_guild pool gid) by (rewrite E2; left).
  apply latest_of_guild_elem in Hr2 as (Hin2 & Eg2 & Hmax2).
  change (format_json json_loads self (Some (guild_select pool r2)) = Ok out) in Hout.
  (* the row of [get_guilds] *)
  destruct (latest_rows_complete (guilds pool) r0 Hr0) as (r1 & Hr1 & Eg1).
  fold (latest_per_guild pool) in Hr1.
  assert (Hin1 : r1 ∈ guilds pool) by by eapply latest_rows_elem.
  assert (r1 = r2) as ->.
  { apply Huniq; [done|done|congruence|done|].
    apply no_later_antisym.
    - apply Hmax2; [done|congruence].
    - eapply latest_rows_latest; [exact Hr1|done|congruence]. }
  (* its record in the list *)
  unfold get_guilds in Houts. apply format_rows_Ok in Houts.
  apply list_elem_of_lookup_1 in Hr1 as [i Hi].
  assert (Hrec : (guilds_select pool <$> latest_per_guild pool) !! i
                 = Some (guilds_select pool r2)) by by rewrite list_lookup_fmap, Hi.
  destruct (Forall2_lookup_l _ _ _ _ _ Houts Hrec) as (o & Ho & d & -> & Hd).
  exists (Some d). split_and!.
  - by eapply list_elem_of_lookup_2.
  - intros k Hk Hnk. rewrite (format_json_field _ _ _ _ _ Hout Hnk). simpl.
    rewrite (decoded_lookup _ _ _ _ _ Hd Hnk). by apply summary_keys_selected_alike.
  - intros Hnk. rewrite (format_json_field _ _ _ _ _ Hout Hnk). simpl. by rewrite Eg2.
  - intros Hnk l. rewrite (format_json_field _ _ _ _ _ Hout Hnk). simpl.
    rewrite (decoded_lookup _ _ _ _ _ Hd Hnk). simpl.
    destruct (players r2) as [p|]; simpl; [|done].
    intros [= <-] Hl. rewrite length_fmap. by destruct p.
Qed.

End get_guild_and_get_guilds.

Lemma div_half_away_opp d p : div_half_away (- d) p = - div_half_away d p.
Proof. unfold div_half_away. rewrite Z.sgn_opp, Z.abs_opp. lia. Qed.

Lemma div_half_away_mono d1 d2 p : 0 < p → d1 ≤ d2 → div_half_away d1 p ≤ div_half_away d2 p.
Proof.
  intros Hp Hd. unfold div_half_away.
  assert (Hh : 0 ≤ p / 2) by (apply Z.div_pos; lia).
  assert (Hq : ∀ d, 0 ≤ (Z.abs d + p / 2) / p) by (intros d; apply Z.div_pos; lia).
  pose proof (Hq d1). pose proof (Hq d2).
  destruct (Z.sgn_spec d1) as [(? & ->)|[(? & ->)|(? & ->)]],
           (Z.sgn_spec d2) as [(? & ->)|[(? & ->)|(? & ->)]]; try lia.
  - assert ((Z.abs d1 + p / 2) / p ≤ (Z.abs d2 + p / 2) / p)
      by (apply Z.div_le_mono; lia). lia.
  - assert ((Z.abs d2 + p / 2) / p ≤ (Z.abs d1 + p / 2) / p)
      by (apply Z.div_le_mono; lia). lia.
Qed.

(** X11. The rounding the statements apply, [ROUND(x::numeric, s)], changes
    nothing when applied again, commutes with the change of sign, and keeps
    the order of two values of the same scale. *)
Theorem sql_round_idempotent_odd_and_monotone :
  (∀ v s, sql_round (sql_round v s) s = sql_round v s) ∧
  (∀ d sc s d', sql_round (NFin d sc) s = NFin d' s →
                sql_round (NFin (- d) sc) s = NFin (- d') s) ∧
  (∀ d1 d2 sc s d1' d2',
     d1 ≤ d2 →
     sql_round (NFin d1 sc) s = NFin d1' s → sql_round (NFin d2 sc) s = NFin d2' s →
     d1' ≤ d2').
Proof.
  split_and!.
  - intros [| |d sc] s; [done..|]. unfold sql_round.
    destruct (sc <=? s)%nat; rewrite Nat.leb_refl, Nat.sub_diag; simpl; f_equal; lia.
  - intros d sc s d'. unfold sql_round. destruct (sc <=? s)%nat; intros [= <-]; f_equal.
    + lia.
    + apply div_half_away_opp.
  - intros d1 d2 sc s d1' d2' Hd. unfold sql_round.
    destruct (sc <=? s)%nat; intros [= <-] [= <-].
    + apply Z.mul_le_mono_nonneg_r; [|done]. apply Z.pow_nonneg. lia.
    + apply div_half_away_mono; [|done]. apply Z.pow_pos_nonneg; lia.
Qed.

(** X13. [get_guild_discord] never raises, and what it returns is None or
    the discord id of a stored row of that guild: a None result is returned
    both for a guild without a row and for a row whose discord is NULL. *)
Theorem get_guild_discord_returns_none_or_a_stored_id `{Floats} self pool gid conn :
  ∃ v, get_guild_discord self pool gid conn = Ok v ∧
       (v = VNone ∨
        ∃ r d, r ∈ guild_information (handle pool conn) ∧
               info_guild_id r = Some gid ∧ discord r = Some d ∧ v = VStr d) ∧
       (v = VNone ↔
        match filter (λ r, info_guild_id r = Some gid) (guild_information (handle pool conn)) with
        | [] => True
        | r :: _ => discord r = None
        end).
Proof.
  unfold get_guild_discord.
  change (λ r, sql_eq (info_guild_id r) gid) with (λ r, info_guild_id r = Some gid).
  destruct (filter _ _) as [|r k] eqn:E; simpl.
  - exists VNone. split_and!; [done|by left|done].
  - assert (Hr : r ∈ filter (λ r, info_guild_id r = Some gid)
                       (guild_information (handle pool conn))) by (rewrite E; left).
    apply list_elem_of_filter in Hr as [Eg Hr].
    exists (py_text (discord r)). split; [done|].
    destruct (discord r) as [d|] eqn:Ed; simpl.
    + split; [right; eauto 6|]. split; done.
    + split; [by left|done].
Qed.

(** * The model on a sample database *)

(** The "C" collation: byte order. *)
#[global] Program Instance C_collation : Collation := {|
  collate := String.compare;
|}.
Next Obligation.
  intros a b. split; [apply String.compare_eq_iff|].
  intros ->. pose proof (String.compare_antisym b b) as E.
  destruct (String.compare b b); simpl in E; congruence.
Qed.
Next Obligation. exact String.compare_antisym. Qed.
Next Obligation.
  intros a b c Hab Hbc.
  apply String_as_OT.cmp_lt. apply String_as_OT.cmp_lt in Hab, Hbc.
  exact (String_as_OT.lt_trans _ _ _ Hab Hbc).
Qed.

(** A stable merge sort: rows that tie stay in table order. *)
#[global] Program Instance merge_sorting : Sorting := {|
  sort_by A cmp := merge_sort (cmp_le cmp);
|}.
Next Obligation. intros A cmp l. apply merge_sort_Permutation. Qed.
Next Obligation.
  intros A cmp l Hw.
  apply (StronglySorted_merge_sort _ (Transitive0 := cmp_le_trans _ Hw)
           (Total0 := cmp_le_total _ Hw)).
Qed.

(** C5. For a guild whose latest snapshot has an empty [players] array the
    [players] field of [get_guilds] is not the length of the array: for G1
    of the sample it is None, not 0, while [get_guild_metrics] returns the
    [member_count] 0 for the same snapshot. *)
Theorem get_guilds_players_is_none_for_an_empty_array :
  fields "players" <$> get_guilds loads_integer plain sample_pool
  = Ok [Some VNone; Some (VInt 1)] ∧
  fields "guild_id" <$> get_guilds loads_integer plain sample_pool
  = Ok [Some (VStr "G1"); Some (VStr "G2")] ∧
  fields "member_count" <$> get_guild_metrics loads_integer plain sample_pool "G1"
  = Ok [Some (VInt 2); Some (VInt 0)].
Proof. split_and!; vm_compute; reflexivity. Qed.

(** C2, counterexample. With "name", "discord" and the uuid u1 in
    [json_keys] and the stored text 7, which [json.loads] decodes to the
    number 7 (as [format_json] does on the same items),
    [get_id_name_autocomplete], [get_guild_discord] and [get_names] return
    the text. *)
Lemma three_operations_return_undecoded_text :
  get_id_name_autocomplete decoding sample_pool
  = Ok [ [("id", VStr "G1"); ("name", VStr "7")];
         [("id", VStr "G2"); ("name", VStr "Beta")] ] ∧
  format_json loads_integer decoding (Some [("id", VStr "G1"); ("name", VStr "7")])
  = Ok (Some [("id", VStr "G1"); ("name", VInt 7)]) ∧
  get_guild_discord decoding sample_pool "G1" None = Ok (VStr "7") ∧
  format_json loads_integer decoding (Some [("discord", VStr "7")])
  = Ok (Some [("discord", VInt 7)]) ∧
  (λ d : gmap (option string) value, d !! Some "u1") <$> get_names decoding sample_pool ["u1"]
  = Ok (Some (VStr "7")) ∧
  format_json loads_integer decoding (Some [("u1", VStr "7")])
  = Ok (Some [("u1", VInt 7)]).
Proof. split_and!; vm_compute; reflexivity. Qed.

(** C3, counterexample. [get_guilds] called with a connection raises
    TypeError; it does not return what the statement gives on that
    connection. *)
Lemma get_guilds_takes_no_connection :
  has_conn_parameter GetGuilds = false ∧
  (call loads_integer plain sample_pool GetGuilds (Some (Some empty_conn))).1
  = Raise TypeError ∧
  (call loads_integer plain empty_conn GetGuilds None).1 = Ok (Rows []).
Proof. split_and!; vm_compute; reflexivity. Qed.

Lemma sample_has_no_G9 (r : guild_row) : r ∈ guilds sample_pool → guild_id r ≠ Some "G9".
Proof.
  intros Hr. simpl in Hr.
  repeat (apply elem_of_cons in Hr as [->|Hr]; [done|]).
  by apply elem_of_nil in Hr.
Defined.

Lemma sample_has_no_discord_of_G9 (r : info_row) :
  r ∈ guild_information sample_pool → info_guild_id r ≠ Some "G9".
Proof.
  intros Hr. simpl in Hr.
  repeat (apply elem_of_cons in Hr as [->|Hr]; [done|]).
  by apply elem_of_nil in Hr.
Defined.

Lemma sample_unique_guild_id : unique_guild_id (guild_information sample_pool).
Proof. intros gid. apply (length_filter _ [_]). Defined.

(** C1, on the sample: the record of G1 is the one captured at 20. *)
Lemma get_guild_returns_latest_snapshot_sample :
  ∃ r, r ∈ guilds (handle sample_pool None) ∧ guild_id r = Some "G1" ∧
       (∀ r', r' ∈ guilds (handle sample_pool None) → guild_id r' = Some "G1" →
              no_later (capture_date r') (capture_date r)) ∧
       (∀ r' t t', r' ∈ guilds (handle sample_pool None) → guild_id r' = Some "G1" →
              capture_date r = Some t → capture_date r' = Some t' → t' ≤ t) ∧
       get_guild loads_integer plain sample_pool "G1" None
       = format_json loads_integer plain (Some (guild_select (handle sample_pool None) r)).
Proof.
  apply get_guild_returns_latest_snapshot.
  exists (snapshot "G1" "7" 10 ["u1"; "u2"] (NFin 20 1)).
  split; [left|reflexivity].
Defined.

(** C6, on the sample: G9 has no snapshot and no discord id. *)
Lemma get_guild_and_discord_none_when_absent_sample :
  get_guild loads_integer plain sample_pool "G9" None = Ok None ∧
  get_guild_discord plain sample_pool "G9" None = Ok VNone.
Proof.
  destruct (get_guild_and_discord_none_when_absent loads_integer plain sample_pool "G9" None)
    as [Hguild Hdiscord].
  split.
  - apply Hguild, sample_has_no_G9.
  - apply Hdiscord, sample_has_no_discord_of_G9.
Defined.

(** C7, on the sample: G1 has the discord id 7; after D1 and then D2 are
    written it has D2. *)
Lemma upsert_guild_info_last_write_wins_sample :
  ∃ p1 p2,
    upsert_guild_info plain sample_pool "G1" "D1" = Ok p1 ∧
    upsert_guild_info plain p1 "G1" "D2" = Ok p2 ∧
    filter (λ r, info_guild_id r = Some "G1") (guild_information p2)
    = [ {| info_guild_id := Some "G1"; discord := Some "D2" |} ] ∧
    unique_guild_id (guild_information p2) ∧
    get_guild_discord plain p2 "G1" None = Ok (VStr "D2") ∧
    ("D1" = "D2" → p2 = p1).
Proof.
  apply upsert_guild_info_last_write_wins, sample_unique_guild_id.
Defined.

(** C8, on the sample: G9 has no snapshot. *)
Lemma get_guild_metrics_and_history_empty_sample :
  get_guild_metrics loads_integer plain sample_pool "G9" = Ok [] ∧
  get_guild_history loads_integer plain sample_pool "G9" = Ok [].
Proof.
  destruct (get_guild_metrics_and_history_oldest_first loads_integer plain sample_pool "G9")
    as (L & _ & _ & _ & _ & Hempty).
  apply Hempty, sample_has_no_G9.
Defined.

Lemma real_12_345_casts_to_12_345 : numeric_of_binary32 real_12_345 = NFin 12345 3.
Proof. vm_compute. reflexivity. Defined.

Lemma float8_nearest_12_35 :
  binary64_of_numeric (NFin 1235 2) = S754_finite false 6952431924753203 (-49).
Proof. vm_compute. reflexivity. Defined.

(** C9, on the sample: the average weights 12.344 of G1 and 12.345 of G2
    are returned as 12.34 and 12.35; and with IEEE values, the [REAL]
    nearest to 12.345 is returned as the [float] nearest to 12.35, which is
    6952431924753203 * 2^-49. *)
Lemma averages_rounded_sample :
  (∃ outs,
     get_guilds loads_integer plain sample_pool = Ok outs ∧
     fields "average_weight" outs
     = [Some (VFloat (NFin 1234 2)); Some (VFloat (NFin 1235 2))]) ∧
  numeric_of_binary32 real_12_345 = NFin 12345 3 ∧
  @round2 ieee_floats (Some real_12_345)
  = @VFloat ieee_floats (S754_finite false 6952431924753203 (-49)).
Proof.
  split_and!.
  - eexists. split; [vm_compute; reflexivity|].
    destruct (averages_and_stats_rounded_to_two_places
                loads_integer plain sample_pool "G1" [] None) as [Hguilds _].
    rewrite (Hguilds "average_weight" average_weight).
    + vm_compute. reflexivity.
    + unfold guild_averages. do 3 right. left.
    + apply not_elem_of_nil.
    + reflexivity.
  - apply real_12_345_casts_to_12_345.
  - destruct (@averages_and_stats_rounded_to_two_places ieee_floats _ _
                loads_integer plain empty_conn "G1" [] None)
      as (_ & _ & _ & _ & _ & _ & Hexample).
    etrans; [apply (Hexample real_12_345), real_12_345_casts_to_12_345|].
    exact (f_equal (@VFloat ieee_floats) float8_nearest_12_35).
Defined.

(** C10, on the sample: the latest snapshot of G1 has no player. *)
Lemma member_count_none_versus_zero_sample :
  ∃ outs_g outs_m,
    get_guilds loads_integer plain sample_pool = Ok outs_g ∧
    get_guild_metrics loads_integer plain sample_pool "G1" = Ok outs_m ∧
    fields "players" outs_g = [Some VNone; Some (VInt 1)] ∧
    fields "member_count" outs_m = [Some (VInt 2); Some (VInt 0)].
Proof.
  eexists _, _. split; [vm_compute; reflexivity|]. split; [vm_compute; reflexivity|].
  match goal with
  | |- fields _ ?og = _ ∧ fields _ ?om = _ =>
      edestruct (member_count_none_versus_zero loads_integer plain sample_pool "G1" og om)
        as (Hg & Hm & _)
  end; [apply not_elem_of_nil|apply not_elem_of_nil|
        vm_compute; reflexivity|vm_compute; reflexivity|].
  split.
  - rewrite Hg. vm_compute. reflexivity.
  - rewrite Hm. vm_compute. reflexivity.
Defined.

(** ** More runs on the sample *)

Lemma sample_G1_dates_differ (r r' : guild_row) :
  r ∈ guilds sample_pool → r' ∈ guilds sample_pool →
  guild_id r = Some "G1" → guild_id r' = Some "G1" →
  capture_date r = capture_date r' → r = r'.
Proof.
  simpl. intros Hr Hr'.
  repeat (apply elem_of_cons in Hr as [->|Hr]);
    try (by apply elem_of_nil in Hr);
    repeat (apply elem_of_cons in Hr' as [->|Hr']);
    try (by apply elem_of_nil in Hr'); done.
Qed.

(** X4, on the sample. *)
Lemma autocomplete_lists_the_guilds_sample :
  ∃ pairs, get_id_name_autocomplete plain sample_pool = Ok pairs ∧
           length pairs = 2%nat ∧
           lookup_field "id" <$> pairs = [Some (VStr "G1"); Some (VStr "G2")] ∧
           lookup_field "name" <$> pairs = [Some (VStr "7"); Some (VStr "Beta")].
Proof.
  edestruct (autocomplete_lists_the_guilds_of_get_guilds loads_integer plain sample_pool)
    as (pairs & Hp & Hlen & Hid & Hname);
    [apply not_elem_of_nil|apply not_elem_of_nil|vm_compute; reflexivity|].
  exists pairs. split_and!; [done|..].
  - rewrite Hlen. reflexivity.
  - rewrite Hid. vm_compute. reflexivity.
  - rewrite Hname. vm_compute. reflexivity.
Defined.

(** X7, on the sample: writing the discord id of G2 leaves that of G1. *)
Lemma upsert_guild_info_touches_one_guild_sample :
  ∃ p, upsert_guild_info plain sample_pool "G2" "D9" = Ok p ∧
       get_guild_discord plain p "G1" None = Ok (VStr "7") ∧
       length (guild_information p) = 2%nat.
Proof.
  destruct (upsert_guild_info_touches_one_guild plain sample_pool "G2" "D9" "G1")
    as (p & Hp & Hread & _ & _ & _ & Hlen); [done|].
  exists p. split_and!; [done|..].
  - rewrite Hread. vm_compute. reflexivity.
  - rewrite Hlen. vm_compute. reflexivity.
Defined.

(** X8, on the sample: G1 had two players, then none. *)
Lemma member_count_is_the_length_of_history_players_sample :
  ∃ outs_m outs_h,
    get_guild_metrics loads_integer plain sample_pool "G1" = Ok outs_m ∧
    get_guild_history loads_integer plain sample_pool "G1" = Ok outs_h ∧
    fields "players" outs_h
    = [Some (VList [VStr "u1"; VStr "u2"]); Some (VList [])] ∧
    fields "member_count" outs_m
    = (λ v : option value, count_of_list <$> v) <$> fields "players" outs_h.
Proof.
  eexists _, _. split; [vm_compute; reflexivity|]. split; [vm_compute; reflexivity|].
  split; [vm_compute; reflexivity|].
  match goal with
  | |- fields _ ?om = _ <$> fields _ ?oh =>
      edestruct (member_count_is_the_length_of_history_players
                   loads_integer plain sample_pool "G1" om oh) as (_ & Hcount & _)
  end; [apply not_elem_of_nil|apply not_elem_of_nil|apply not_elem_of_nil|
        vm_compute; reflexivity|vm_compute; reflexivity|].
  exact Hcount.
Defined.

(** X9, on the sample: G1. *)
Lemma get_guild_agrees_with_get_guilds_sample :
  ∃ outs out o,
    get_guilds loads_integer plain sample_pool = Ok outs ∧
    get_guild loads_integer plain sample_pool "G1" None = Ok out ∧
    o ∈ outs ∧
    o ≫= lookup_field "average_weight" = out ≫= lookup_field "average_weight" ∧
    out ≫= lookup_field "guild_id" = Some (VStr "G1").
Proof.
  eexists _, _.
  match goal with
  | |- ∃ o, get_guilds _ _ _ = Ok ?outs ∧ get_guild _ _ _ _ _ = Ok ?out ∧ _ =>
      edestruct (get_guild_agrees_with_get_guilds loads_integer plain sample_pool "G1")
        as (o & Ho & Hkeys & Hgid & _)
  end; [apply sample_G1_dates_differ| |vm_compute; reflexivity|vm_compute; reflexivity|].
  { exists (snapshot "G1" "7" 10 ["u1"; "u2"] (NFin 20 1)). split; [left|reflexivity]. }
  exists o. split_and!; [reflexivity|reflexivity|exact Ho| |].
  - apply Hkeys; [|apply not_elem_of_nil]. unfold guild_summary_keys. do 3 right. left.
  - apply Hgid, not_elem_of_nil.
Defined.

(** X10, on the sample (session time zone UTC): the elapsed times of G1 are
    90 and 80. *)
Lemma elapsed_times_never_increase_sample :
  ∃ outs,
    get_guild_metrics loads_integer plain sample_pool "G1" = Ok outs ∧
    fields "time_difference" outs = [Some (VTimedelta 90); Some (VTimedelta 80)] ∧
    StronglySorted
      (λ a b, ∀ x y, a = Some (VTimedelta x) → b = Some (VTimedelta y) → y ≤ x)
      (fields "time_difference" outs).
Proof.
  eexists. split; [vm_compute; reflexivity|]. split; [vm_compute; reflexivity|].
  apply (elapsed_times_never_increase loads_integer plain sample_pool "G1").
  - intros a b Hab. exact Hab.
  - apply not_elem_of_nil.
  - left. vm_compute. reflexivity.
Defined.
